(** * Portcullis BAM filter: junction-aware CIGAR clipping

    A shallow embedding of [src/bam_filter.cc] (the containment
    check [containsJunctionInSystem], the clipping engine [clipMSR] and
    the per-record body of [filter]) and of the parts of
    [lib/include/portcullis/bam/bam_alignment.hpp] they use ([CigarOp],
    [BamAlignment]).

    Alignment objects live in a store: the C++ code hands them around by
    reference and by [shared_ptr], copies one with [make_shared] and then
    mutates the copy with [setCigarOpAt].  The store makes the aliasing
    explicit, so that "the input record is not touched" is a statement
    about the code and not an artefact of the model. *)

From stdpp Require Import gmap strings list fin_maps pretty.
From Stdlib Require Import ZArith Ascii.

Local Open Scope Z_scope.

(** ** Machine integers *)

(** [int32_t] arithmetic (positions, lengths, the reference cursor).
    Signed overflow is undefined in C++; the model takes the two's
    complement result, wrap-around written out. *)
Definition wrap32 (z : Z) : Z := (z + 2 ^ 31) `mod` 2 ^ 32 - 2 ^ 31.

(** [uint64_t] arithmetic (the read counters of [filter]). *)
Definition wrap64 (z : Z) : Z := z `mod` 2 ^ 64.

(** ** CIGAR operations ([struct CigarOp]) *)

Definition BAM_CIGAR_MATCH_CHAR : ascii := "M".
Definition BAM_CIGAR_INS_CHAR : ascii := "I".
Definition BAM_CIGAR_DEL_CHAR : ascii := "D".
Definition BAM_CIGAR_REFSKIP_CHAR : ascii := "N".
Definition BAM_CIGAR_SOFTCLIP_CHAR : ascii := "S".
Definition BAM_CIGAR_HARDCLIP_CHAR : ascii := "H".
Definition BAM_CIGAR_PAD_CHAR : ascii := "P".
Definition BAM_CIGAR_EQUAL_CHAR : ascii := "=".
Definition BAM_CIGAR_DIFF_CHAR : ascii := "X".
Definition BAM_CIGAR_BACK_CHAR : ascii := "B".

Module CigarOp.

Record t : Type := mk { type : ascii; length : Z }.

Definition opConsumesQuery (op : ascii) : bool :=
  match op with
  | "M" | "I" | "S" | "=" | "X" => true
  | _ => false
  end%char.

Definition opConsumesReference (op : ascii) : bool :=
  match op with
  | "M" | "D" | "N" | "=" | "X" => true
  | _ => false
  end%char.

End CigarOp.

(** ** Alignments ([class BamAlignment]) *)

Module BamAlignment.

(** The scalar fields and the operation vector.  The raw htslib record
    [b] and the strand enumerations play no part in the filter. *)
Record t : Type := mk {
  alFlag : Z;
  position : Z;
  alignedLength : Z;
  refId : Z;
  mateId : Z;
  matePos : Z;
  cigar : list CigarOp.t
}.

Definition withCigar (al : t) (cig : list CigarOp.t) : t :=
  mk (alFlag al) (position al) (alignedLength al) (refId al)
     (mateId al) (matePos al) cig.

Definition getPosition (al : t) : Z := position al.
Definition getReferenceId (al : t) : Z := refId al.
Definition getNbCigarOps (al : t) : nat := List.length (cigar al).

(** [cigar[index]]: reading past the end of a [std::vector] is
    undefined, here it is a failure.  A BAM record holds fewer than
    2^32 operations, so the [uint32_t] index parameter never truncates
    the [size_t] loop counter; indices are [nat]. *)
Definition getCigarOpAt (al : t) (index : nat) : option CigarOp.t :=
  cigar al !! index.

Definition setCigarOpAt (al : t) (index : nat) (cigarOp : CigarOp.t)
  : option t :=
  if decide (index < getNbCigarOps al)%nat
  then Some (withCigar al (<[index := cigarOp]> (cigar al)))
  else None.

(** Modelled from the spec: [getNbJunctionsInRead] and [isSplicedRead]
    are declared in the header but defined in a file that is not part
    of the sources at hand.  Spec 4.3: the junction count is the number
    of ReferenceSkip operations, a read is spliced iff it has at least
    one. *)
Definition getNbJunctionsInRead (al : t) : nat :=
  List.length
    (filter (λ op, CigarOp.type op = BAM_CIGAR_REFSKIP_CHAR) (cigar al)).

Definition isSplicedRead (al : t) : bool :=
  bool_decide (0 < getNbJunctionsInRead al)%nat.

Definition isMultiplySplicedRead (al : t) : bool :=
  bool_decide (1 < getNbJunctionsInRead al)%nat.

End BamAlignment.

(** ** Reference sequences, introns and the junction system *)

Module RefSeq.
Record t : Type := mk { index : Z; name : string; length : Z }.
End RefSeq.

Module Intron.
(** [Intron(RefSeq, start, end)], both ends inclusive. *)
Record t : Type := mk { ref : RefSeq.t; start : Z; end_ : Z }.
End Intron.

(** Modelled from the spec: [JunctionSystem] is not among the sources.
    Spec 3 and 4.2: a junction index built once, keyed by
    [(reference id, start, end)], looked up by exact match; presence
    means trusted.  [getJunction] answers whether the lookup is
    non-null. *)
Definition getJunction (js : gset (Z * Z * Z)) (location : Intron.t) : bool :=
  bool_decide
    ((RefSeq.index (Intron.ref location),
      Intron.start location,
      Intron.end_ location) ∈ js).

(** ** The store of alignment objects *)

Abbreviation loc := positive.

Abbreviation Heap := (gmap positive BamAlignment.t).

(** Computations that read and write the store and may fail
    (an out-of-range index, a dangling handle). *)
Definition M (A : Type) : Type := Heap → option (A * Heap).

Global Instance M_ret : MRet M := λ A x h, Some (x, h).

Global Instance M_bind : MBind M := λ A B f m h,
  match m h with
  | Some (x, h') => f x h'
  | None => None
  end.

Definition failM {A : Type} : M A := λ _, None.

Definition liftOpt {A : Type} (o : option A) : M A :=
  match o with
  | Some x => mret x
  | None => failM
  end.

Definition load (l : loc) : M BamAlignment.t := λ h,
  match h !! l with
  | Some a => Some (a, h)
  | None => None
  end.

Definition store (l : loc) (a : BamAlignment.t) : M unit := λ h,
  match h !! l with
  | Some _ => Some (tt, <[l := a]> h)
  | None => None
  end.

(** [make_shared<BamAlignment>(al)]: the copy constructor "makes a deep
    copy of an existing BamAlignment"; the copy is a new object. *)
Definition make_shared_copy (al : loc) : M loc := λ h,
  match h !! al with
  | Some a => let l := fresh (dom h) in Some (l, <[l := a]> h)
  | None => None
  end.

(** The last [shared_ptr] to an object goes out of scope (the end of
    the block that declares [clipped] in [filter]). *)
Definition release (l : loc) : M unit := λ h,
  match h !! l with
  | Some _ => Some (tt, delete l h)
  | None => None
  end.

(** Method calls through a reference. *)
Definition getPosition (al : loc) : M Z :=
  a ← load al; mret (BamAlignment.getPosition a).

Definition getReferenceId (al : loc) : M Z :=
  a ← load al; mret (BamAlignment.getReferenceId a).

Definition getNbCigarOps (al : loc) : M nat :=
  a ← load al; mret (BamAlignment.getNbCigarOps a).

Definition getCigarOpAt (al : loc) (index : nat) : M CigarOp.t :=
  a ← load al; liftOpt (BamAlignment.getCigarOpAt a index).

Definition setCigarOpAt (al : loc) (index : nat) (cigarOp : CigarOp.t)
  : M unit :=
  a ← load al;
  a' ← liftOpt (BamAlignment.setCigarOpAt a index cigarOp);
  store al a'.

Definition isSplicedRead (al : loc) : M bool :=
  a ← load al; mret (BamAlignment.isSplicedRead a).

Definition isMultiplySplicedRead (al : loc) : M bool :=
  a ← load al; mret (BamAlignment.isMultiplySplicedRead a).

(** [refs[refId]]: the reference dictionary is a vector indexed by the
    reference id; an id outside it is a failure. *)
Definition refAt (refs : list RefSeq.t) (refId : Z) : M RefSeq.t :=
  if refId <? 0 then failM else liftOpt (refs !! Z.to_nat refId).

(** ** Loops *)

(** [for (i = lo; i < hi; i++) body]: the loop variables are threaded
    through [S].  The bound is fixed before the loop: the C++ bound
    [al.getNbCigarOps()] is re-read at every test, but no statement of
    either loop changes the size of a vector. *)
Fixpoint forM {S : Type} (body : nat → S → M S) (idxs : list nat) (s : S)
  : M S :=
  match idxs with
  | [] => mret s
  | i :: idxs' => s' ← body i s; forM body idxs' s'
  end.

Definition forRange {S : Type} (lo hi : nat) (body : nat → S → M S) (s : S)
  : M S :=
  forM body (seq lo (hi - lo)) s.

(** The same loop with a [return] inside the body: [inl r] leaves the
    function with [r], [inr s] goes on with the next index. *)
Fixpoint forRet {S R : Type} (body : nat → S → M (R + S)) (idxs : list nat)
  (s : S) : M (R + S) :=
  match idxs with
  | [] => mret (inr s)
  | i :: idxs' =>
      r ← body i s;
      match r with
      | inl x => mret (inl x)
      | inr s' => forRet body idxs' s'
      end
  end.

(** ** The filter ([class BamFilter], [bam_filter.cc]) *)

Module BamFilter.

Inductive ClipMode : Type := HARD | SOFT | COMPLETE.

Global Instance ClipMode_eq_dec : EqDecision ClipMode.
Proof. solve_decision. Defined.

(** The configuration fields the filter reads. *)
Record t : Type := mk { clipMode : ClipMode; saveMSRs : bool }.

(** *** [containsJunctionInSystem] *)

Record Cursor : Type := mkCursor { c_lEnd : Z; c_rStart : Z }.

(** One turn of the loop at lines 83-97.  Only an operation that is
    not a ReferenceSkip moves [lEnd]. *)
Definition containsJunction_body (al : loc) (ref : RefSeq.t)
  (js : gset (Z * Z * Z)) (i : nat) (s : Cursor) : M (bool + Cursor) :=
  op ← getCigarOpAt al i;
  if Ascii.eqb (CigarOp.type op) BAM_CIGAR_REFSKIP_CHAR then
    let rStart := wrap32 (c_lEnd s + CigarOp.length op) in
    let location := Intron.mk ref (c_lEnd s) (wrap32 (rStart - 1)) in
    if getJunction js location
    then mret (inl true)
    else mret (inr (mkCursor (c_lEnd s) rStart))
  else if CigarOp.opConsumesReference (CigarOp.type op) then
    mret (inr (mkCursor (wrap32 (c_lEnd s + CigarOp.length op)) (c_rStart s)))
  else mret (inr s).

Definition containsJunctionInSystem (al : loc) (refs : list RefSeq.t)
  (js : gset (Z * Z * Z)) : M bool :=
  refId ← getReferenceId al;
  r ← refAt refs refId;
  let refName := RefSeq.name r in
  let refLength := RefSeq.length r in
  lStart ← getPosition al;
  n ← getNbCigarOps al;
  res ← forRet
          (containsJunction_body al (RefSeq.mk refId refName refLength) js)
          (seq 0 n) (mkCursor lStart lStart);
  match res with
  | inl b => mret b
  | inr _ => mret false
  end.

(** *** [clipMSR] *)

(** The local variables of [clipMSR] that the loop updates. *)
Record Vars : Type := mkVars {
  lEnd : Z;
  rStart : Z;
  opStart : nat;
  lastGood : bool;
  ab : bool
}.

Definition modOpOf (clipMode : ClipMode) : ascii :=
  match clipMode with
  | HARD => BAM_CIGAR_HARDCLIP_CHAR
  | SOFT => BAM_CIGAR_SOFTCLIP_CHAR
  | COMPLETE => BAM_CIGAR_DEL_CHAR
  end.

(** [modifiedAlignment->setCigarOpAt(j, CigarOp(modOp,
    al.getCigarOpAt(j).length))] for [j] from [lo] up to but not
    including [hi] (lines 131-133 and 143-145). *)
Definition clipOps (modOp : ascii) (al modifiedAlignment : loc)
  (lo hi : nat) : M unit :=
  forRange lo hi
    (λ j _,
       o ← getCigarOpAt al j;
       setCigarOpAt modifiedAlignment j (CigarOp.mk modOp (CigarOp.length o)))
    tt.

(** One turn of the loop at lines 116-141. *)
Definition clipMSR_body (modOp : ascii) (al modifiedAlignment : loc)
  (ref : RefSeq.t) (js : gset (Z * Z * Z)) (i : nat) (s : Vars) : M Vars :=
  op ← getCigarOpAt al i;
  if Ascii.eqb (CigarOp.type op) BAM_CIGAR_REFSKIP_CHAR then
    let rStart' := wrap32 (lEnd s + CigarOp.length op) in
    let location := Intron.mk ref (lEnd s) (wrap32 (rStart' - 1)) in
    if getJunction js location then
      mret (mkVars (lEnd s) rStart' (i + 1) true false)
    else
      let opStart' := if lastGood s then i else opStart s in
      _ ← clipOps modOp al modifiedAlignment opStart' i;
      mret (mkVars (lEnd s) rStart' (i + 1) false (ab s))
  else if CigarOp.opConsumesReference (CigarOp.type op) then
    mret (mkVars (wrap32 (lEnd s + CigarOp.length op)) (rStart s)
            (opStart s) (lastGood s) (ab s))
  else mret s.

(** Lines 142-146: the operations after the last skip. *)
Definition clipMSR_tail (modOp : ascii) (al modifiedAlignment : loc)
  (n : nat) (s : Vars) : M unit :=
  if lastGood s then mret tt
  else clipOps modOp al modifiedAlignment (opStart s) n.

(** Returns the handle of the clipped copy and [allBad]. *)
Definition clipMSR (self : t) (al : loc) (refs : list RefSeq.t)
  (js : gset (Z * Z * Z)) : M (loc * bool) :=
  refId ← getReferenceId al;
  r ← refAt refs refId;
  let refName := RefSeq.name r in
  let refLength := RefSeq.length r in
  lStart ← getPosition al;
  modifiedAlignment ← make_shared_copy al;
  let modOp := modOpOf (clipMode self) in
  n ← getNbCigarOps al;
  s ← forRange 0 n
        (clipMSR_body modOp al modifiedAlignment
           (RefSeq.mk refId refName refLength) js)
        (mkVars lStart lStart 0 false true);
  _ ← clipMSR_tail modOp al modifiedAlignment n s;
  mret (modifiedAlignment, ab s).

(** *** [filter]: the body of the record loop (lines 190-222) *)

(** The three writers and the counters.  A writer is the list of the
    records written to it so far, oldest first. *)
Record Run : Type := mkRun {
  writer : list BamAlignment.t;
  modWriter : list BamAlignment.t;
  unmodWriter : list BamAlignment.t;
  nbReadsIn : Z;
  nbReadsOut : Z;
  nbReadsModifiedOut : Z
}.

(** [w.write(al)]: the writer serialises the record as it is now. *)
Definition write (w : list BamAlignment.t) (al : loc)
  : M (list BamAlignment.t) :=
  a ← load al; mret (w ++ [a]).

Definition filter_body (self : t) (refs : list RefSeq.t)
  (js : gset (Z * Z * Z)) (al : loc) (st : Run) : M Run :=
  let nbIn := wrap64 (nbReadsIn st + 1) in
  let discarded :=
    mkRun (writer st) (modWriter st) (unmodWriter st) nbIn
      (nbReadsOut st) (nbReadsModifiedOut st) in
  spliced ← isSplicedRead al;
  if spliced : bool then
    single ← match clipMode self return M bool with
             | COMPLETE => mret true
             | _ => msr ← isMultiplySplicedRead al; mret (negb msr)
             end;
    if single : bool then
      found ← containsJunctionInSystem al refs js;
      if found : bool then
        w ← write (writer st) al;
        mret (mkRun w (modWriter st) (unmodWriter st) nbIn
                (wrap64 (nbReadsOut st + 1)) (nbReadsModifiedOut st))
      else mret discarded
    else
      '(clipped, allBad) ← clipMSR self al refs js;
      st' ← (if negb allBad return M Run then
               w ← write (writer st) clipped;
               '(m, u) ← (if saveMSRs self
                            return M (list BamAlignment.t *
                                      list BamAlignment.t)
                          then
                            m ← write (modWriter st) clipped;
                            u ← write (unmodWriter st) al;
                            mret (m, u)
                          else mret (modWriter st, unmodWriter st));
               mret (mkRun w m u nbIn (wrap64 (nbReadsOut st + 1))
                       (wrap64 (nbReadsModifiedOut st + 1)))
             else mret discarded);
      _ ← release clipped;
      mret st'
  else
    w ← write (writer st) al;
    mret (mkRun w (modWriter st) (unmodWriter st) nbIn
            (wrap64 (nbReadsOut st + 1)) (nbReadsModifiedOut st)).

End BamFilter.

(** ** Functional forms used to state and prove the properties *)

Definition isSkip (op : CigarOp.t) : bool :=
  Ascii.eqb (CigarOp.type op) BAM_CIGAR_REFSKIP_CHAR.

(** The reference cursor [lEnd] after the loops of
    [containsJunctionInSystem] and [clipMSR] have walked [ops], started
    at [lEnd0]: the same three-way branch as the two loop bodies. *)
Fixpoint cursorAfter (lEnd0 : Z) (ops : list CigarOp.t) : Z :=
  match ops with
  | [] => lEnd0
  | op :: ops' =>
      if isSkip op then cursorAfter lEnd0 ops'
      else if CigarOp.opConsumesReference (CigarOp.type op)
           then cursorAfter (wrap32 (lEnd0 + CigarOp.length op)) ops'
           else cursorAfter lEnd0 ops'
  end.

(** The intron the loops build at a skip [op] met with cursor [lEnd0]:
    [Intron(RefSeq(...), lEnd, rStart - 1)] with
    [rStart = lEnd + op.length]. *)
Definition intronAt (ref : RefSeq.t) (lEnd0 : Z) (op : CigarOp.t) : Intron.t :=
  Intron.mk ref lEnd0 (wrap32 (wrap32 (lEnd0 + CigarOp.length op) - 1)).

(** The introns built during a full walk over [ops], in order. *)
Fixpoint derivedIntrons (ref : RefSeq.t) (lEnd0 : Z) (ops : list CigarOp.t)
  : list Intron.t :=
  match ops with
  | [] => []
  | op :: ops' =>
      if isSkip op then intronAt ref lEnd0 op :: derivedIntrons ref lEnd0 ops'
      else if CigarOp.opConsumesReference (CigarOp.type op)
           then derivedIntrons ref (wrap32 (lEnd0 + CigarOp.length op)) ops'
           else derivedIntrons ref lEnd0 ops'
  end.

(** The [RefSeq] both functions rebuild from the dictionary entry. *)
Definition refSeqOf (al : BamAlignment.t) (r : RefSeq.t) : RefSeq.t :=
  RefSeq.mk (BamAlignment.refId al) (RefSeq.name r) (RefSeq.length r).

(** The alignment names an entry of the reference dictionary. *)
Definition validRef (refs : list RefSeq.t) (al : BamAlignment.t) : Prop :=
  0 ≤ BamAlignment.refId al ∧
  is_Some (refs !! Z.to_nat (BamAlignment.refId al)).

(** Sum of the lengths of the reference-consuming operations (the
    aligned length of spec 3), as a mathematical sum. *)
Definition refLength (op : CigarOp.t) : Z :=
  if CigarOp.opConsumesReference (CigarOp.type op)
  then CigarOp.length op else 0.

Definition alignedLengthOf (ops : list CigarOp.t) : Z :=
  foldr (λ op acc, refLength op + acc) 0 ops.

Definition totalLengthOf (ops : list CigarOp.t) : Z :=
  foldr (λ op acc, CigarOp.length op + acc) 0 ops.

(** The effect of [clipOps] on the operation vector [cur] of the copy,
    [orig] being the vector of the input. *)
Definition clipRange (modOp : ascii) (orig : list CigarOp.t) (lo hi : nat)
  (cur : list CigarOp.t) : list CigarOp.t :=
  imap (λ j c,
          if bool_decide (lo ≤ j < hi)%nat
          then match orig !! j with
               | Some o => CigarOp.mk modOp (CigarOp.length o)
               | None => c
               end
          else c) cur.

(** The effect of one turn of the [clipMSR] loop on the local variables
    and on the vector of the copy. *)
Definition nextVars (ref : RefSeq.t) (js : gset (Z * Z * Z)) (i : nat)
  (op : CigarOp.t) (s : BamFilter.Vars) : BamFilter.Vars :=
  if isSkip op then
    let rStart' := wrap32 (BamFilter.lEnd s + CigarOp.length op) in
    if getJunction js (intronAt ref (BamFilter.lEnd s) op)
    then BamFilter.mkVars (BamFilter.lEnd s) rStart' (i + 1) true false
    else BamFilter.mkVars (BamFilter.lEnd s) rStart' (i + 1) false
           (BamFilter.ab s)
  else if CigarOp.opConsumesReference (CigarOp.type op) then
    BamFilter.mkVars (wrap32 (BamFilter.lEnd s + CigarOp.length op))
      (BamFilter.rStart s) (BamFilter.opStart s) (BamFilter.lastGood s)
      (BamFilter.ab s)
  else s.

Definition nextCigar (modOp : ascii) (ref : RefSeq.t) (js : gset (Z * Z * Z))
  (orig : list CigarOp.t) (i : nat) (op : CigarOp.t) (s : BamFilter.Vars)
  (cur : list CigarOp.t) : list CigarOp.t :=
  if isSkip op && negb (getJunction js (intronAt ref (BamFilter.lEnd s) op))
  then clipRange modOp orig
         (if BamFilter.lastGood s then i else BamFilter.opStart s) i cur
  else cur.

Definition clipTurn (modOp : ascii) (ref : RefSeq.t) (js : gset (Z * Z * Z))
  (orig : list CigarOp.t) (sc : BamFilter.Vars * list CigarOp.t) (i : nat)
  : BamFilter.Vars * list CigarOp.t :=
  match orig !! i with
  | Some op =>
      (nextVars ref js i op sc.1, nextCigar modOp ref js orig i op sc.1 sc.2)
  | None => sc
  end.

(** Variables and vector of the copy after the first [k] turns. *)
Definition clipTurns (modOp : ascii) (ref : RefSeq.t) (js : gset (Z * Z * Z))
  (lStart : Z) (orig : list CigarOp.t) (k : nat)
  : BamFilter.Vars * list CigarOp.t :=
  foldl (clipTurn modOp ref js orig)
    (BamFilter.mkVars lStart lStart 0 false true, orig) (seq 0 k).

(** The vector of the copy when [clipMSR] returns. *)
Definition clippedCigar (modOp : ascii) (ref : RefSeq.t)
  (js : gset (Z * Z * Z)) (lStart : Z) (orig : list CigarOp.t)
  : list CigarOp.t :=
  let sc := clipTurns modOp ref js lStart orig (List.length orig) in
  if BamFilter.lastGood sc.1 then sc.2
  else clipRange modOp orig (BamFilter.opStart sc.1) (List.length orig) sc.2.

(** [allBad]: no intron built during the walk is in the junction system. *)
Definition allBadOf (ref : RefSeq.t) (js : gset (Z * Z * Z)) (lStart : Z)
  (orig : list CigarOp.t) : bool :=
  negb (existsb (getJunction js) (derivedIntrons ref lStart orig)).

(** ** Invariant of the clipping loop *)

(** After [k] turns: the pending region [opStart, k) holds no skip, every
    entry of the copy is the input's or the input's with the clip kind
    (and then it is no skip), and cursor and flags follow the walk. *)
Record ClipInv (modOp : ascii) (ref : RefSeq.t) (js : gset (Z * Z * Z))
  (lStart : Z) (orig : list CigarOp.t) (k : nat)
  (sc : BamFilter.Vars * list CigarOp.t) : Prop := mkClipInv {
  inv_opStart : (BamFilter.opStart sc.1 ≤ k)%nat;
  inv_pending : ∀ j o, (BamFilter.opStart sc.1 ≤ j < k)%nat →
                  orig !! j = Some o → isSkip o = false;
  inv_cigar : ∀ j : nat,
      sc.2 !! j = orig !! j ∨
      ∃ o, orig !! j = Some o ∧ isSkip o = false ∧
           sc.2 !! j = Some (CigarOp.mk modOp (CigarOp.length o));
  inv_lEnd : BamFilter.lEnd sc.1 = cursorAfter lStart (take k orig);
  inv_ab : BamFilter.ab sc.1
           = negb (existsb (getJunction js)
                     (derivedIntrons ref lStart (take k orig)))
}.

(** ** Outcomes of the record loop body *)

(** The three outcomes of one turn of the record loop, as new values of
    the writers and counters. *)
Definition discardRun (st : BamFilter.Run) : BamFilter.Run :=
  BamFilter.mkRun (BamFilter.writer st) (BamFilter.modWriter st)
    (BamFilter.unmodWriter st) (wrap64 (BamFilter.nbReadsIn st + 1))
    (BamFilter.nbReadsOut st) (BamFilter.nbReadsModifiedOut st).

Definition passRun (st : BamFilter.Run) (a : BamAlignment.t) : BamFilter.Run :=
  BamFilter.mkRun (BamFilter.writer st ++ [a]) (BamFilter.modWriter st)
    (BamFilter.unmodWriter st) (wrap64 (BamFilter.nbReadsIn st + 1))
    (wrap64 (BamFilter.nbReadsOut st + 1)) (BamFilter.nbReadsModifiedOut st).

Definition clippedRun (save : bool) (st : BamFilter.Run)
  (a a' : BamAlignment.t) : BamFilter.Run :=
  BamFilter.mkRun (BamFilter.writer st ++ [a'])
    (if save then BamFilter.modWriter st ++ [a'] else BamFilter.modWriter st)
    (if save then BamFilter.unmodWriter st ++ [a]
     else BamFilter.unmodWriter st)
    (wrap64 (BamFilter.nbReadsIn st + 1))
    (wrap64 (BamFilter.nbReadsOut st + 1))
    (wrap64 (BamFilter.nbReadsModifiedOut st + 1)).

(** ** The clipped vector against the input *)

(** Entry by entry: kept, or given the clip kind where the input has no
    skip. *)
Definition clipOf (modOp : ascii) (o o' : CigarOp.t) : Prop :=
  o' = o ∨ (isSkip o = false ∧ o' = CigarOp.mk modOp (CigarOp.length o)).

(** The lengths of the reference-consuming operations of [orig] whose
    kind is not the one found at the same index of [out]. *)
Fixpoint clippedRefLength (orig out : list CigarOp.t) : Z :=
  match orig, out with
  | o :: orig', o' :: out' =>
      (if Ascii.eqb (CigarOp.type o) (CigarOp.type o') then 0
       else refLength o) + clippedRefLength orig' out'
  | _, _ => 0
  end.

(** ** Worked inputs *)

Definition ex_ref : RefSeq.t := RefSeq.mk 0 "chr1" 100000.

Definition ex_refs : list RefSeq.t := [ex_ref].

(** [50M 200N 30M 500N 20M] at position 100 of reference 0: the skips
    span the reference positions 150 to 349 and 380 to 879. *)
Definition ex_cigar : list CigarOp.t :=
  [CigarOp.mk "M" 50; CigarOp.mk "N" 200; CigarOp.mk "M" 30;
   CigarOp.mk "N" 500; CigarOp.mk "M" 20].

Definition ex_al : BamAlignment.t :=
  BamAlignment.mk 0 100 800 0 (-1) (-1) ex_cigar.

Definition ex_heap : gmap positive BamAlignment.t := {[ 1%positive := ex_al ]}.

(** Only the intron of the first skip is trusted. *)
Definition ex_js : gset (Z * Z * Z) := {[ (0, 150, 349) ]}.

Definition ex_hard : BamFilter.t := BamFilter.mk BamFilter.HARD true.

(** [10M 5N 10M], one skip. *)
Definition ex3_al : BamAlignment.t :=
  BamAlignment.mk 0 100 25 0 (-1) (-1)
    [CigarOp.mk "M" 10; CigarOp.mk "N" 5; CigarOp.mk "M" 10].

(** [10M 5N 10M 5N 10M], two skips: a multiply-spliced read. *)
Definition ex5_al : BamAlignment.t :=
  BamAlignment.mk 0 100 40 0 (-1) (-1)
    [CigarOp.mk "M" 10; CigarOp.mk "N" 5; CigarOp.mk "M" 10;
     CigarOp.mk "N" 5; CigarOp.mk "M" 10].

(** The store inside [clipMSR] once the copy is made: the input under
    handle 1, its copy under handle 2. *)
Definition ex5_pair : gmap positive BamAlignment.t :=
  {[ 1%positive := ex5_al; 2%positive := ex5_al ]}.

Definition ex_pair : gmap positive BamAlignment.t :=
  {[ 1%positive := ex_al; 2%positive := ex_al ]}.

Definition ex_unspliced : BamAlignment.t :=
  BamAlignment.mk 0 100 75 0 (-1) (-1) [CigarOp.mk "M" 75].

Definition ex_single : BamAlignment.t :=
  BamAlignment.mk 0 100 280 0 (-1) (-1)
    [CigarOp.mk "M" 50; CigarOp.mk "N" 200; CigarOp.mk "M" 30].

(** Writers and counters before the first record. *)
Definition ex_run : BamFilter.Run := BamFilter.mkRun [] [] [] 0 0 0.

(** ** Skips next to an operation *)

(** Whether the loops find the skip at index [p] in the junction system:
    the lookup made with the cursor as it stands after the operations
    before [p]. *)
Definition trustedAt (ref : RefSeq.t) (js : gset (Z * Z * Z)) (lStart : Z)
  (orig : list CigarOp.t) (p : nat) : bool :=
  match orig !! p with
  | Some op =>
      isSkip op &&
      getJunction js (intronAt ref (cursorAfter lStart (take p orig)) op)
  | None => false
  end.

(** [p] is the index of a skip with no other skip between it and [j]:
    the skip that bounds the segment of [j] on one side. *)
Definition adjacentSkip (orig : list CigarOp.t) (j p : nat) : Prop :=
  p ≠ j ∧
  (∃ op, orig !! p = Some op ∧ isSkip op = true) ∧
  ∀ (i : nat) (o : CigarOp.t),
    (Nat.min j p < i < Nat.max j p)%nat → orig !! i = Some o →
    isSkip o = false.

(** After [k] turns: [lastGood] is the trust of the skip just before the
    pending region, the pending region of the copy is still the
    input's, and every operation before it has its final value. *)
Record SegInv (modOp : ascii) (ref : RefSeq.t) (js : gset (Z * Z * Z))
  (lStart : Z) (orig : list CigarOp.t)
  (sc : BamFilter.Vars * list CigarOp.t) : Prop := mkSegInv {
  seg_first : BamFilter.opStart sc.1 = 0%nat → BamFilter.lastGood sc.1 = false;
  seg_after : ∀ p : nat, BamFilter.opStart sc.1 = S p →
                (∃ op, orig !! p = Some op ∧ isSkip op = true) ∧
                BamFilter.lastGood sc.1 = trustedAt ref js lStart orig p;
  seg_pending : ∀ j : nat, (BamFilter.opStart sc.1 ≤ j)%nat →
                  sc.2 !! j = orig !! j;
  seg_kept : ∀ (j p : nat) (o : CigarOp.t),
      (j < BamFilter.opStart sc.1)%nat → orig !! j = Some o →
      adjacentSkip orig j p → trustedAt ref js lStart orig p = true →
      sc.2 !! j = Some o;
  seg_clipped : ∀ (j : nat) (o : CigarOp.t),
      (j < BamFilter.opStart sc.1)%nat → orig !! j = Some o →
      isSkip o = false →
      (∀ p, adjacentSkip orig j p → trustedAt ref js lStart orig p = false) →
      sc.2 !! j = Some (CigarOp.mk modOp (CigarOp.length o))
}.

(** ** Reference lengths seen by the cursor *)

(** Sum of the lengths of the operations that consume the reference and
    are no skips: what the loops add to [lEnd]. *)
Definition nonSkipRefLength (ops : list CigarOp.t) : Z :=
  foldr (λ op acc, (if isSkip op then 0 else refLength op) + acc) 0 ops.

(** ** The record loop of [filter] *)

(** Modelled from the spec: the record source ([BamReader]) is not among
    the sources.  Spec 5 and 6: records are obtained one at a time from
    a sequential source, each one read, routed and written before the
    next is read.  [reader.next()] puts the next record in the reader's
    alignment object and [reader.current()] hands that object out by
    reference; the handle [cur] stands for it.  The loop is the one at
    lines 190-222 of [filter]. *)
Fixpoint filter_loop (self : BamFilter.t) (refs : list RefSeq.t)
  (js : gset (Z * Z * Z)) (cur : loc) (records : list BamAlignment.t)
  (st : BamFilter.Run) : M BamFilter.Run :=
  match records with
  | [] => mret st
  | rec :: rest =>
      _ ← store cur rec;
      st' ← BamFilter.filter_body self refs js cur st;
      filter_loop self refs js cur rest st'
  end.

(** Lines 176-222: the writers are opened, the three counters start at
    zero, then the loop runs. *)
Definition filter_records (self : BamFilter.t) (refs : list RefSeq.t)
  (js : gset (Z * Z * Z)) (cur : loc) (records : list BamAlignment.t)
  : M BamFilter.Run :=
  filter_loop self refs js cur records (BamFilter.mkRun [] [] [] 0 0 0).

(** Line 230: [uint32_t diff = nbReadsIn - nbReadsOut], the number
    reported as filtered out. *)
Definition diffOf (st : BamFilter.Run) : Z :=
  wrap64 (BamFilter.nbReadsIn st - BamFilter.nbReadsOut st) `mod` 2 ^ 32.

(** The introns the walk derives for a record, given the dictionary. *)
Definition intronsOf (refs : list RefSeq.t) (a : BamAlignment.t)
  : list Intron.t :=
  match refs !! Z.to_nat (BamAlignment.refId a) with
  | Some r =>
      derivedIntrons (refSeqOf a r) (BamAlignment.position a)
        (BamAlignment.cigar a)
  | None => []
  end.

(** A record is kept when it is unspliced or one of its introns is in
    the junction system. *)
Definition keptRecord (refs : list RefSeq.t) (js : gset (Z * Z * Z))
  (a : BamAlignment.t) : bool :=
  negb (BamAlignment.isSplicedRead a) ||
  existsb (getJunction js) (intronsOf refs a).

(** A record goes through [clipMSR] when it is multiply spliced and the
    mode is not Complete. *)
Definition clippedRecord (self : BamFilter.t) (a : BamAlignment.t) : bool :=
  BamAlignment.isMultiplySplicedRead a &&
  negb (bool_decide (BamFilter.clipMode self = BamFilter.COMPLETE)).

(** What is written for a kept record: the record itself, or its
    clipped copy. *)
Definition writtenRecord (self : BamFilter.t) (refs : list RefSeq.t)
  (js : gset (Z * Z * Z)) (a : BamAlignment.t) : BamAlignment.t :=
  if clippedRecord self a then
    match refs !! Z.to_nat (BamAlignment.refId a) with
    | Some r =>
        BamAlignment.withCigar a
          (clippedCigar (BamFilter.modOpOf (BamFilter.clipMode self))
             (refSeqOf a r) js (BamAlignment.position a)
             (BamAlignment.cigar a))
    | None => a
    end
  else a.

(** The records among [rs] that go through [clipMSR] and are kept. *)
Definition clippedKept (self : BamFilter.t) (refs : list RefSeq.t)
  (js : gset (Z * Z * Z)) (rs : list BamAlignment.t) : list BamAlignment.t :=
  List.filter (λ a, keptRecord refs js a && clippedRecord self a) rs.

(** One turn of the record loop on the writers and counters. *)
Definition stepRun (self : BamFilter.t) (refs : list RefSeq.t)
  (js : gset (Z * Z * Z)) (st : BamFilter.Run) (a : BamAlignment.t)
  : BamFilter.Run :=
  if keptRecord refs js a then
    if clippedRecord self a
    then clippedRun (BamFilter.saveMSRs self) st a (writtenRecord self refs js a)
    else passRun st a
  else discardRun st.

(** ** CIGAR text ([CigarOp::toString], [getCigarAsString]) *)

(** [lexical_cast<string>(length) + type]: the length in decimal, with
    a leading minus sign when negative, then the kind character. *)
Definition toString (op : CigarOp.t) : string :=
  pretty (CigarOp.length op) +:+ String (CigarOp.type op) "".

(** The operations' texts one after the other. *)
Definition getCigarAsString (al : BamAlignment.t) : string :=
  foldr (λ c acc, toString c +:+ acc) "" (BamAlignment.cigar al).

(** The ten kind characters. *)
Definition cigarKinds : list ascii :=
  [BAM_CIGAR_MATCH_CHAR; BAM_CIGAR_INS_CHAR; BAM_CIGAR_DEL_CHAR;
   BAM_CIGAR_REFSKIP_CHAR; BAM_CIGAR_SOFTCLIP_CHAR; BAM_CIGAR_HARDCLIP_CHAR;
   BAM_CIGAR_PAD_CHAR; BAM_CIGAR_EQUAL_CHAR; BAM_CIGAR_DIFF_CHAR;
   BAM_CIGAR_BACK_CHAR].

(** The characters a decimal number is written with. *)
Definition isNumChar (c : ascii) : bool :=
  match c with
  | "0" | "1" | "2" | "3" | "4" | "5" | "6" | "7" | "8" | "9" | "-" => true
  | _ => false
  end%char.

Fixpoint allNumChars (s : string) : bool :=
  match s with
  | EmptyString => true
  | String c s' => isNumChar c && allNumChars s'
  end.

(** ** Query length *)

(** Sum of the lengths of the query-consuming operations. *)
Definition queryLength (op : CigarOp.t) : Z :=
  if CigarOp.opConsumesQuery (CigarOp.type op)
  then CigarOp.length op else 0.

Definition queryLengthOf (ops : list CigarOp.t) : Z :=
  foldr (λ op acc, queryLength op + acc) 0 ops.

(** ** Worked inputs for the record loop *)

(** An unspliced record, a record whose single junction is trusted, a
    record with two junctions of which the first is trusted, and a
    record whose single junction is not trusted. *)
Definition ex_records : list BamAlignment.t :=
  [ex_unspliced; ex_single; ex_al; ex3_al].

Definition ex_complete : BamFilter.t := BamFilter.mk BamFilter.COMPLETE true.

(** Both introns the walk derives for [ex_al]. *)
Definition ex_js_all : gset (Z * Z * Z) := {[ (0, 150, 349); (0, 180, 679) ]}.

(** * Properties *)

(** ** The monad and the store *)

Lemma bind_run {A B : Type} (m : M A) (f : A → M B) (h : Heap) :
  (m ≫= f) h = match m h with Some (x, h') => f x h' | None => None end.
Proof. reflexivity. Qed.

Lemma ret_run {A : Type} (x : A) (h : Heap) :
  (mret x : M A) h = Some (x, h).
Proof. reflexivity. Qed.

Lemma load_run (l : loc) (a : BamAlignment.t) (h : Heap) :
  h !! l = Some a → load l h = Some (a, h).
Proof. intros Hl. unfold load. by rewrite Hl. Qed.

Lemma withCigar_same (a : BamAlignment.t) :
  BamAlignment.withCigar a (BamAlignment.cigar a) = a.
Proof. by destruct a. Qed.

Lemma getCigarOpAt_run (l : loc) (a : BamAlignment.t) (i : nat)
  (op : CigarOp.t) (h : Heap) :
  h !! l = Some a → BamAlignment.cigar a !! i = Some op →
  getCigarOpAt l i h = Some (op, h).
Proof.
  intros Hl Hi. unfold getCigarOpAt. rewrite bind_run, (load_run _ _ _ Hl).
  unfold BamAlignment.getCigarOpAt. by rewrite Hi.
Qed.

Lemma setCigarOpAt_run (l : loc) (a : BamAlignment.t) (i : nat)
  (op : CigarOp.t) (h : Heap) :
  h !! l = Some a → (i < List.length (BamAlignment.cigar a))%nat →
  setCigarOpAt l i op h
  = Some (tt, <[l := BamAlignment.withCigar a (<[i := op]> (BamAlignment.cigar a))]> h).
Proof.
  intros Hl Hi. unfold setCigarOpAt.
  rewrite bind_run, (load_run _ _ _ Hl), bind_run.
  unfold BamAlignment.setCigarOpAt, BamAlignment.getNbCigarOps.
  rewrite decide_True by done. cbn. unfold store. by rewrite Hl.
Qed.

(** ** Loop rules *)

(** An invariant carried through a counted loop; the loop returns. *)
Lemma forM_invariant {St : Type} (body : nat → St → M St)
  (I : nat → St → Heap → Prop) (n lo : nat) (s : St) (h : Heap) :
  I lo s h →
  (∀ i s1 h1, (lo ≤ i < lo + n)%nat → I i s1 h1 →
     ∃ s2 h2, body i s1 h1 = Some (s2, h2) ∧ I (S i) s2 h2) →
  ∃ s' h', forM body (seq lo n) s h = Some (s', h') ∧ I (lo + n)%nat s' h'.
Proof.
  revert lo s h. induction n as [|n IH]; intros lo s h H0 Hstep.
  - exists s, h. rewrite Nat.add_0_r. by split.
  - destruct (Hstep lo s h) as (s2 & h2 & Hb & HI); [lia|done|].
    destruct (IH (S lo) s2 h2) as (s' & h' & Hrun & HI'); [done| |].
    + intros i s1 h1 Hi. apply Hstep. lia.
    + exists s', h'. split.
      * cbn [seq forM]. by rewrite bind_run, Hb.
      * by replace (lo + S n)%nat with (S lo + n)%nat by lia.
Qed.

(** ** Clipping a range of operations *)

Lemma clipRange_length modOp orig lo hi cur :
  List.length (clipRange modOp orig lo hi cur) = List.length cur.
Proof. unfold clipRange. by rewrite length_imap. Qed.

Lemma clipRange_lookup modOp orig lo hi cur (j : nat) :
  clipRange modOp orig lo hi cur !! j
  = if bool_decide (lo ≤ j < hi)%nat
    then match orig !! j with
         | Some o => (λ _, CigarOp.mk modOp (CigarOp.length o)) <$> cur !! j
         | None => cur !! j
         end
    else cur !! j.
Proof.
  unfold clipRange. rewrite list_lookup_imap.
  destruct (cur !! j) as [c|]; cbn.
  - case_bool_decide; [|done]. by destruct (orig !! j).
  - case_bool_decide; [|done]. by destruct (orig !! j).
Qed.

Lemma clipRange_empty modOp orig lo hi cur :
  (hi ≤ lo)%nat → clipRange modOp orig lo hi cur = cur.
Proof.
  intros Hle. apply list_eq. intros j. rewrite clipRange_lookup.
  rewrite bool_decide_eq_false_2 by lia. done.
Qed.

Lemma clipRange_extend modOp orig lo j cur (o : CigarOp.t) :
  (lo ≤ j)%nat → orig !! j = Some o →
  <[j := CigarOp.mk modOp (CigarOp.length o)]> (clipRange modOp orig lo j cur)
  = clipRange modOp orig lo (S j) cur.
Proof.
  intros Hlo Ho. apply list_eq. intros k.
  destruct (decide (k = j)) as [->|Hne].
  - rewrite (clipRange_lookup _ _ _ (S j)), bool_decide_eq_true_2, Ho by lia.
    destruct (decide (j < List.length cur)%nat) as [Hlt|Hge].
    + rewrite list_lookup_insert_eq by (by rewrite clipRange_length).
      destruct (lookup_lt_is_Some_2 cur j Hlt) as [c ->]. done.
    + rewrite list_insert_ge by (rewrite clipRange_length; lia).
      rewrite clipRange_lookup, bool_decide_eq_false_2 by lia.
      rewrite (lookup_ge_None_2 cur j) by lia. done.
  - rewrite list_lookup_insert_ne by done.
    rewrite !clipRange_lookup.
    destruct (decide (lo ≤ k < j)%nat).
    + by rewrite !bool_decide_eq_true_2 by lia.
    + by rewrite !bool_decide_eq_false_2 by lia.
Qed.

(** What [clipOps] does to the store: the copy's kinds in [lo, hi) become
    [modOp], with the lengths of the input; nothing else moves. *)
Lemma clipOps_run (modOp : ascii) (al m : loc) (a am : BamAlignment.t) lo hi (h : Heap) :
  al ≠ m → h !! al = Some a → h !! m = Some am →
  List.length (BamAlignment.cigar am) = List.length (BamAlignment.cigar a) →
  (hi ≤ List.length (BamAlignment.cigar a))%nat →
  BamFilter.clipOps modOp al m lo hi h
  = Some (tt, <[m := BamAlignment.withCigar am
                       (clipRange modOp (BamAlignment.cigar a) lo hi
                          (BamAlignment.cigar am))]> h).
Proof.
  intros Hne Hal Hm Hlen Hhi. unfold BamFilter.clipOps, forRange.
  destruct (decide (lo ≤ hi)%nat) as [Hle|Hgt].
  2: { replace (hi - lo)%nat with 0%nat by lia. cbn.
       rewrite clipRange_empty by lia.
       by rewrite withCigar_same, insert_id. }
  set (I := λ (j : nat) (_ : unit) (h' : Heap),
         h' = <[m := BamAlignment.withCigar am
                       (clipRange modOp (BamAlignment.cigar a) lo j
                          (BamAlignment.cigar am))]> h).
  edestruct (forM_invariant
               (λ j (_ : unit),
                  o ← getCigarOpAt al j;
                  setCigarOpAt m j (CigarOp.mk modOp (CigarOp.length o)))
               I (hi - lo) lo tt h) as (s' & h' & Hrun & HI).
  - unfold I. rewrite clipRange_empty by lia.
    by rewrite withCigar_same, insert_id.
  - intros j [] h1 Hj ->.
    destruct (lookup_lt_is_Some_2 (BamAlignment.cigar a) j) as [o Ho]; [lia|].
    eexists tt, _. split.
    + rewrite bind_run.
      rewrite (getCigarOpAt_run al a j o); [|by rewrite lookup_insert_ne|done].
      erewrite (setCigarOpAt_run m _ j); [|by rewrite lookup_insert_eq|].
      2: { cbn. rewrite clipRange_length. lia. }
      reflexivity.
    + unfold I. rewrite insert_insert_eq. cbn.
      by rewrite (clipRange_extend _ _ _ _ _ o) by (done || lia).
  - rewrite Hrun. destruct s'. unfold I in HI. rewrite HI.
    by replace (lo + (hi - lo))%nat with hi by lia.
Qed.

(** ** The clipping loop, turn by turn *)

Lemma clipMSR_body_run (modOp : ascii) (al m : loc) (a am : BamAlignment.t)
  (ref : RefSeq.t) (js : gset (Z * Z * Z)) (i : nat) (op : CigarOp.t)
  (s : BamFilter.Vars) (h : Heap) :
  al ≠ m → h !! al = Some a → h !! m = Some am →
  List.length (BamAlignment.cigar am) = List.length (BamAlignment.cigar a) →
  BamAlignment.cigar a !! i = Some op →
  BamFilter.clipMSR_body modOp al m ref js i s h
  = Some (nextVars ref js i op s,
          <[m := BamAlignment.withCigar am
                   (nextCigar modOp ref js (BamAlignment.cigar a) i op s
                      (BamAlignment.cigar am))]> h).
Proof.
  intros Hne Hal Hm Hlen Hop.
  assert (Hi : (i ≤ List.length (BamAlignment.cigar a))%nat).
  { apply lookup_lt_Some in Hop. lia. }
  assert (Hid : <[m := BamAlignment.withCigar am (BamAlignment.cigar am)]> h = h).
  { by rewrite withCigar_same, insert_id. }
  unfold BamFilter.clipMSR_body, nextVars, nextCigar.
  rewrite bind_run, (getCigarOpAt_run al a i op h Hal Hop).
  fold (isSkip op). fold (intronAt ref (BamFilter.lEnd s) op).
  destruct (isSkip op); cbn [andb].
  - destruct (getJunction js (intronAt ref (BamFilter.lEnd s) op)); cbn [negb].
    + by rewrite ret_run, Hid.
    + rewrite bind_run.
      by rewrite (clipOps_run modOp al m a am _ i h Hne Hal Hm Hlen Hi).
  - destruct (CigarOp.opConsumesReference (CigarOp.type op));
      by rewrite ret_run, Hid.
Qed.

Lemma clipTurns_S modOp ref js lStart orig (k : nat) :
  clipTurns modOp ref js lStart orig (S k)
  = clipTurn modOp ref js orig (clipTurns modOp ref js lStart orig k) k.
Proof. unfold clipTurns. by rewrite seq_S, foldl_app. Qed.

Lemma clipTurn_length modOp ref js orig sc (i : nat) :
  List.length (clipTurn modOp ref js orig sc i).2 = List.length sc.2.
Proof.
  unfold clipTurn. destruct (orig !! i) as [op|]; [|done]. cbn.
  unfold nextCigar. case_match; [|done]. apply clipRange_length.
Qed.

Lemma clipTurns_length modOp ref js lStart orig (k : nat) :
  List.length (clipTurns modOp ref js lStart orig k).2 = List.length orig.
Proof.
  induction k as [|k IH]; [done|].
  by rewrite clipTurns_S, clipTurn_length.
Qed.

Lemma clipMSR_loop_run (modOp : ascii) (al m : loc) (a : BamAlignment.t)
  (ref : RefSeq.t) (js : gset (Z * Z * Z)) (lStart : Z) (h : Heap) :
  al ≠ m → h !! al = Some a → h !! m = Some a →
  let n := List.length (BamAlignment.cigar a) in
  let sc := clipTurns modOp ref js lStart (BamAlignment.cigar a) n in
  forRange 0 n (BamFilter.clipMSR_body modOp al m ref js)
    (BamFilter.mkVars lStart lStart 0 false true) h
  = Some (sc.1, <[m := BamAlignment.withCigar a sc.2]> h).
Proof.
  intros Hne Hal Hm n sc. unfold forRange. rewrite Nat.sub_0_r.
  set (I := λ (k : nat) (s : BamFilter.Vars) (h' : Heap),
         s = (clipTurns modOp ref js lStart (BamAlignment.cigar a) k).1 ∧
         h' = <[m := BamAlignment.withCigar a
                       (clipTurns modOp ref js lStart (BamAlignment.cigar a) k).2]> h).
  edestruct (forM_invariant (BamFilter.clipMSR_body modOp al m ref js) I n 0
               (BamFilter.mkVars lStart lStart 0 false true) h)
    as (s' & h' & Hrun & Hs & Hh).
  - split; [done|]. cbn. by rewrite withCigar_same, insert_id.
  - intros i s1 h1 Hi [-> ->].
    destruct (lookup_lt_is_Some_2 (BamAlignment.cigar a) i) as [op Hop];
      [unfold n in Hi; lia|].
    eexists _, _. split.
    + eapply (clipMSR_body_run modOp al m a); [done| | | |done].
      * by rewrite lookup_insert_ne.
      * by rewrite lookup_insert_eq.
      * cbn. apply clipTurns_length.
    + split.
      * rewrite clipTurns_S. unfold clipTurn. by rewrite Hop.
      * rewrite insert_insert_eq, clipTurns_S. unfold clipTurn.
        by rewrite Hop.
  - rewrite Hrun. cbn in Hs, Hh. by rewrite Hs, Hh.
Qed.

Lemma fresh_not_in (h : Heap) : h !! fresh (dom h) = None.
Proof. apply not_elem_of_dom, is_fresh. Qed.

(** What [clipMSR] returns and what it leaves in the store. *)
Lemma clipMSR_run (self : BamFilter.t) (al : loc) (a : BamAlignment.t)
  (refs : list RefSeq.t) (r : RefSeq.t) (js : gset (Z * Z * Z)) (h : Heap) :
  h !! al = Some a → 0 ≤ BamAlignment.refId a →
  refs !! Z.to_nat (BamAlignment.refId a) = Some r →
  let modOp := BamFilter.modOpOf (BamFilter.clipMode self) in
  let ref := refSeqOf a r in
  let m := fresh (dom h) in
  let sc := clipTurns modOp ref js (BamAlignment.position a)
              (BamAlignment.cigar a) (List.length (BamAlignment.cigar a)) in
  BamFilter.clipMSR self al refs js h
  = Some ((m, BamFilter.ab sc.1),
          <[m := BamAlignment.withCigar a
                   (clippedCigar modOp ref js (BamAlignment.position a)
                      (BamAlignment.cigar a))]> h).
Proof.
  intros Hal Hpos Hr modOp ref m sc.
  assert (Hfresh : h !! m = None) by apply fresh_not_in.
  assert (Hne : al ≠ m) by (intros ->; congruence).
  unfold clippedCigar. fold sc.
  unfold BamFilter.clipMSR.
  unfold getReferenceId at 1. rewrite !bind_run, (load_run _ _ _ Hal), ret_run.
  unfold BamAlignment.getReferenceId.
  unfold refAt. destruct (Z.ltb_spec (BamAlignment.refId a) 0) as [Hlt|_]; [lia|].
  rewrite bind_run, Hr. cbn [liftOpt]. rewrite ret_run.
  unfold getPosition. rewrite !bind_run, (load_run _ _ _ Hal), ret_run.
  rewrite bind_run. unfold make_shared_copy. rewrite Hal. cbn zeta. fold m.
  set (h1 := <[m := a]> h).
  assert (Hal1 : h1 !! al = Some a) by (unfold h1; by rewrite lookup_insert_ne).
  assert (Hm1 : h1 !! m = Some a) by (unfold h1; by rewrite lookup_insert_eq).
  unfold getNbCigarOps.
  rewrite !bind_run, (load_run _ _ _ Hal1), ret_run.
  unfold BamAlignment.getNbCigarOps, BamAlignment.getPosition.
  change (RefSeq.mk (BamAlignment.refId a) (RefSeq.name r) (RefSeq.length r))
    with ref.
  change (BamFilter.modOpOf (BamFilter.clipMode self)) with modOp.
  rewrite bind_run.
  rewrite (clipMSR_loop_run modOp al m a ref js _ h1 Hne Hal1 Hm1).
  cbv zeta. fold sc. rewrite bind_run.
  unfold BamFilter.clipMSR_tail.
  destruct (BamFilter.lastGood sc.1).
  - rewrite !ret_run. unfold h1. by rewrite insert_insert_eq.
  - rewrite (clipOps_run modOp al m a (BamAlignment.withCigar a sc.2)).
    + rewrite ret_run. unfold h1. by rewrite !insert_insert_eq.
    + done.
    + by rewrite lookup_insert_ne.
    + by rewrite lookup_insert_eq.
    + cbn. apply clipTurns_length.
    + done.
Qed.

(** ** The cursor and the derived introns *)

Lemma cursorAfter_app (l : Z) (xs ys : list CigarOp.t) :
  cursorAfter l (xs ++ ys) = cursorAfter (cursorAfter l xs) ys.
Proof.
  revert l. induction xs as [|x xs IH]; intros l; [done|].
  cbn. destruct (isSkip x); [apply IH|].
  destruct (CigarOp.opConsumesReference (CigarOp.type x)); apply IH.
Qed.

(** The cursor does not see the skips: walking [ops] leaves it where
    walking [ops] without its skips does. *)
Lemma cursorAfter_ignores_skips (l : Z) (ops : list CigarOp.t) :
  cursorAfter l ops = cursorAfter l (filter (λ op, isSkip op = false) ops).
Proof.
  revert l. induction ops as [|op ops IH]; intros l; [done|].
  rewrite filter_cons. cbn [cursorAfter].
  destruct (isSkip op) eqn:Hskip.
  - rewrite decide_False by done. apply IH.
  - rewrite decide_True by done. cbn [cursorAfter]. rewrite Hskip.
    destruct (CigarOp.opConsumesReference (CigarOp.type op)); apply IH.
Qed.

Lemma derivedIntrons_app (ref : RefSeq.t) (l : Z) (xs ys : list CigarOp.t) :
  derivedIntrons ref l (xs ++ ys)
  = derivedIntrons ref l xs ++ derivedIntrons ref (cursorAfter l xs) ys.
Proof.
  revert l. induction xs as [|x xs IH]; intros l; [done|].
  cbn. destruct (isSkip x); [by rewrite IH|].
  destruct (CigarOp.opConsumesReference (CigarOp.type x)); apply IH.
Qed.

Lemma isSkip_true (op : CigarOp.t) :
  isSkip op = true ↔ CigarOp.type op = BAM_CIGAR_REFSKIP_CHAR.
Proof. unfold isSkip. apply Ascii.eqb_eq. Qed.

Lemma isSkip_false (op : CigarOp.t) :
  isSkip op = false ↔ CigarOp.type op ≠ BAM_CIGAR_REFSKIP_CHAR.
Proof. unfold isSkip. apply Ascii.eqb_neq. Qed.

(** ** Invariant of the clipping loop, proved *)

Lemma clipRange_inv (modOp : ascii) (orig cur : list CigarOp.t) (lo hi : nat) :
  List.length cur = List.length orig →
  (∀ j o, (lo ≤ j < hi)%nat → orig !! j = Some o → isSkip o = false) →
  (∀ j : nat, cur !! j = orig !! j ∨
      ∃ o, orig !! j = Some o ∧ isSkip o = false ∧
           cur !! j = Some (CigarOp.mk modOp (CigarOp.length o))) →
  ∀ j : nat, clipRange modOp orig lo hi cur !! j = orig !! j ∨
      ∃ o, orig !! j = Some o ∧ isSkip o = false ∧
           clipRange modOp orig lo hi cur !! j
           = Some (CigarOp.mk modOp (CigarOp.length o)).
Proof.
  intros Hlen Hns Hcur j. rewrite clipRange_lookup.
  case_bool_decide as Hj; [|apply Hcur].
  destruct (orig !! j) as [o|] eqn:Ho.
  2: { specialize (Hcur j). by rewrite Ho in Hcur. }
  right. exists o. split; [done|]. split; [by eapply Hns|].
  destruct (lookup_lt_is_Some_2 cur j) as [c ->]; [|done].
  apply lookup_lt_Some in Ho. lia.
Qed.

Lemma clipTurns_inv (modOp : ascii) (ref : RefSeq.t) (js : gset (Z * Z * Z))
  (lStart : Z) (orig : list CigarOp.t) (k : nat) :
  (k ≤ List.length orig)%nat →
  ClipInv modOp ref js lStart orig k (clipTurns modOp ref js lStart orig k).
Proof.
  induction k as [|k IH]; intros Hk.
  - split; cbn; [lia | intros; lia | by left | done | done].
  - destruct IH as [H1 H2 H3 H4 H5]; [lia|].
    pose proof (clipTurns_length modOp ref js lStart orig k) as Hlen.
    rewrite clipTurns_S.
    destruct (clipTurns modOp ref js lStart orig k) as [s c]. cbn in *.
    destruct (lookup_lt_is_Some_2 orig k) as [op Hop]; [lia|].
    unfold clipTurn. rewrite Hop. cbn [fst snd].
    pose proof (take_S_r _ _ _ Hop) as Htake.
    unfold nextVars, nextCigar.
    destruct (isSkip op) eqn:Hskip; cbn [andb].
    + destruct (getJunction js (intronAt ref (BamFilter.lEnd s) op)) eqn:Hj;
        cbn [negb]; split; cbn; rewrite ?Htake.
      * lia.
      * intros; lia.
      * done.
      * by rewrite cursorAfter_app; cbn; rewrite Hskip.
      * rewrite derivedIntrons_app, existsb_app. cbn. rewrite Hskip. cbn.
        rewrite <- H4, Hj. by rewrite !orb_true_r.
      * lia.
      * intros; lia.
      * apply clipRange_inv; [done| |done].
        intros j o Hjr Ho. apply (H2 j o); [|done].
        destruct (BamFilter.lastGood s); lia.
      * by rewrite cursorAfter_app; cbn; rewrite Hskip.
      * rewrite derivedIntrons_app, existsb_app. cbn. rewrite Hskip. cbn.
        rewrite <- H4, Hj. by rewrite !orb_false_r.
    + assert (Hpend : ∀ j o, (BamFilter.opStart s ≤ j < S k)%nat →
                        orig !! j = Some o → isSkip o = false).
      { intros j o Hjr Ho. destruct (decide (j = k)) as [->|Hne].
        - congruence.
        - apply (H2 j o); [lia|done]. }
      destruct (CigarOp.opConsumesReference (CigarOp.type op)) eqn:Hc;
        split; cbn; rewrite ?Htake; try done; try lia.
      * rewrite cursorAfter_app. cbn. by rewrite Hskip, Hc, H4.
      * rewrite derivedIntrons_app, existsb_app. cbn. rewrite Hskip, Hc. cbn.
        by rewrite orb_false_r.
      * rewrite cursorAfter_app. cbn. by rewrite Hskip, Hc.
      * rewrite derivedIntrons_app, existsb_app. cbn. rewrite Hskip, Hc. cbn.
        by rewrite orb_false_r.
Qed.

Lemma clippedCigar_length modOp ref js lStart orig :
  List.length (clippedCigar modOp ref js lStart orig) = List.length orig.
Proof.
  unfold clippedCigar. cbv zeta. case_match.
  - apply clipTurns_length.
  - rewrite clipRange_length. apply clipTurns_length.
Qed.

(** Entry by entry, the clipped vector is the input's, or the input's
    with the clip kind at an operation that is not a skip. *)
Lemma clippedCigar_entry modOp ref js lStart orig (j : nat) :
  clippedCigar modOp ref js lStart orig !! j = orig !! j ∨
  ∃ o, orig !! j = Some o ∧ isSkip o = false ∧
       clippedCigar modOp ref js lStart orig !! j
       = Some (CigarOp.mk modOp (CigarOp.length o)).
Proof.
  destruct (clipTurns_inv modOp ref js lStart orig (List.length orig))
    as [H1 H2 H3 _ _]; [done|].
  unfold clippedCigar. cbv zeta. case_match; [apply H3|].
  apply clipRange_inv; [apply clipTurns_length|done|done].
Qed.

Lemma clipTurns_ab modOp ref js lStart orig :
  BamFilter.ab (clipTurns modOp ref js lStart orig (List.length orig)).1
  = allBadOf ref js lStart orig.
Proof.
  destruct (clipTurns_inv modOp ref js lStart orig (List.length orig))
    as [_ _ _ _ H5]; [done|].
  rewrite H5. unfold allBadOf. by rewrite firstn_all.
Qed.

(** [clipMSR] returns: a fresh handle to a copy whose vector is
    [clippedCigar], together with [allBadOf]; the rest of the store is
    as before. *)
Lemma clipMSR_spec (self : BamFilter.t) (al : loc) (a : BamAlignment.t)
  (refs : list RefSeq.t) (r : RefSeq.t) (js : gset (Z * Z * Z)) (h : Heap) :
  h !! al = Some a → 0 ≤ BamAlignment.refId a →
  refs !! Z.to_nat (BamAlignment.refId a) = Some r →
  BamFilter.clipMSR self al refs js h
  = Some ((fresh (dom h),
           allBadOf (refSeqOf a r) js (BamAlignment.position a)
             (BamAlignment.cigar a)),
          <[fresh (dom h) :=
              BamAlignment.withCigar a
                (clippedCigar (BamFilter.modOpOf (BamFilter.clipMode self))
                   (refSeqOf a r) js (BamAlignment.position a)
                   (BamAlignment.cigar a))]> h).
Proof.
  intros Hal Hpos Hr.
  rewrite (clipMSR_run self al a refs r js h Hal Hpos Hr). cbv zeta.
  by rewrite clipTurns_ab.
Qed.

(** ** The containment check *)

Lemma containsJunction_loop (al : loc) (a : BamAlignment.t) (ref : RefSeq.t)
  (js : gset (Z * Z * Z)) (h : Heap) (n k : nat) (s : BamFilter.Cursor) :
  h !! al = Some a →
  (k + n)%nat = List.length (BamAlignment.cigar a) →
  ∃ res, forRet (BamFilter.containsJunction_body al ref js) (seq k n) s h
         = Some (res, h) ∧
         match res with
         | inl b => b = true
         | inr _ => True
         end ∧
         (if existsb (getJunction js)
               (derivedIntrons ref (BamFilter.c_lEnd s)
                  (drop k (BamAlignment.cigar a)))
          then res = inl true
          else ∃ s', res = inr s').
Proof.
  intros Hal. revert k s. induction n as [|n IH]; intros k s Hk.
  - exists (inr s). rewrite drop_ge by lia. cbn. eauto.
  - destruct (lookup_lt_is_Some_2 (BamAlignment.cigar a) k) as [op Hop]; [lia|].
    rewrite (drop_S _ _ _ Hop). cbn [seq forRet derivedIntrons].
    rewrite bind_run. unfold BamFilter.containsJunction_body at 1.
    rewrite bind_run, (getCigarOpAt_run al a k op h Hal Hop).
    fold (isSkip op). fold (intronAt ref (BamFilter.c_lEnd s) op).
    destruct (isSkip op).
    + cbn [existsb].
      destruct (getJunction js (intronAt ref (BamFilter.c_lEnd s) op)).
      * rewrite ret_run. exists (inl true). by rewrite ret_run.
      * rewrite ret_run. cbn [orb].
        apply (IH (S k) (BamFilter.mkCursor (BamFilter.c_lEnd s) _)). lia.
    + destruct (CigarOp.opConsumesReference (CigarOp.type op)).
      * rewrite ret_run.
        apply (IH (S k) (BamFilter.mkCursor _ (BamFilter.c_rStart s))). lia.
      * rewrite ret_run. apply IH. lia.
Qed.

(** What [containsJunctionInSystem] returns; the store is as before. *)
Lemma containsJunctionInSystem_spec (al : loc) (a : BamAlignment.t)
  (refs : list RefSeq.t) (r : RefSeq.t) (js : gset (Z * Z * Z)) (h : Heap) :
  h !! al = Some a → 0 ≤ BamAlignment.refId a →
  refs !! Z.to_nat (BamAlignment.refId a) = Some r →
  BamFilter.containsJunctionInSystem al refs js h
  = Some (existsb (getJunction js)
            (derivedIntrons (refSeqOf a r) (BamAlignment.position a)
               (BamAlignment.cigar a)), h).
Proof.
  intros Hal Hpos Hr. unfold BamFilter.containsJunctionInSystem.
  unfold getReferenceId at 1. rewrite !bind_run, (load_run _ _ _ Hal), ret_run.
  unfold BamAlignment.getReferenceId.
  unfold refAt. destruct (Z.ltb_spec (BamAlignment.refId a) 0) as [Hlt|_]; [lia|].
  rewrite bind_run, Hr. cbn [liftOpt]. rewrite ret_run.
  unfold getPosition. rewrite !bind_run, (load_run _ _ _ Hal), ret_run.
  unfold getNbCigarOps.
  rewrite !bind_run, (load_run _ _ _ Hal), ret_run.
  unfold BamAlignment.getNbCigarOps, BamAlignment.getPosition.
  change (RefSeq.mk (BamAlignment.refId a) (RefSeq.name r) (RefSeq.length r))
    with (refSeqOf a r).
  rewrite bind_run.
  destruct (containsJunction_loop al a (refSeqOf a r) js h
              (List.length (BamAlignment.cigar a)) 0
              (BamFilter.mkCursor (BamAlignment.position a)
                 (BamAlignment.position a)) Hal)
    as (res & -> & Hres & Hex); [done|].
  rewrite drop_0 in Hex. cbn [BamFilter.c_lEnd] in Hex.
  destruct (existsb _ _).
  - by subst res.
  - by destruct Hex as [s' ->].
Qed.

(** ** The record loop body *)

Lemma isSplicedRead_run (al : loc) (a : BamAlignment.t) (h : Heap) :
  h !! al = Some a →
  isSplicedRead al h = Some (BamAlignment.isSplicedRead a, h).
Proof. intros Hal. unfold isSplicedRead. by rewrite bind_run, (load_run _ _ _ Hal). Qed.

Lemma isMultiplySplicedRead_run (al : loc) (a : BamAlignment.t) (h : Heap) :
  h !! al = Some a →
  isMultiplySplicedRead al h = Some (BamAlignment.isMultiplySplicedRead a, h).
Proof.
  intros Hal. unfold isMultiplySplicedRead.
  by rewrite bind_run, (load_run _ _ _ Hal).
Qed.

Lemma write_run (w : list BamAlignment.t) (al : loc) (a : BamAlignment.t)
  (h : Heap) :
  h !! al = Some a → BamFilter.write w al h = Some (w ++ [a], h).
Proof. intros Hal. unfold BamFilter.write. by rewrite bind_run, (load_run _ _ _ Hal). Qed.

Lemma filter_body_unspliced (self : BamFilter.t) (refs : list RefSeq.t)
  (js : gset (Z * Z * Z)) (al : loc) (a : BamAlignment.t)
  (st : BamFilter.Run) (h : Heap) :
  h !! al = Some a → BamAlignment.isSplicedRead a = false →
  BamFilter.filter_body self refs js al st h = Some (passRun st a, h).
Proof.
  intros Hal Hs. unfold BamFilter.filter_body. cbv zeta.
  rewrite bind_run, (isSplicedRead_run al a h Hal), Hs.
  by rewrite bind_run, (write_run _ al a h Hal).
Qed.

Lemma filter_body_single (self : BamFilter.t) (refs : list RefSeq.t)
  (r : RefSeq.t) (js : gset (Z * Z * Z)) (al : loc) (a : BamAlignment.t)
  (st : BamFilter.Run) (h : Heap) :
  h !! al = Some a → 0 ≤ BamAlignment.refId a →
  refs !! Z.to_nat (BamAlignment.refId a) = Some r →
  BamAlignment.isSplicedRead a = true →
  BamFilter.clipMode self = BamFilter.COMPLETE ∨
    BamAlignment.isMultiplySplicedRead a = false →
  BamFilter.filter_body self refs js al st h
  = Some (if existsb (getJunction js)
               (derivedIntrons (refSeqOf a r) (BamAlignment.position a)
                  (BamAlignment.cigar a))
          then passRun st a else discardRun st, h).
Proof.
  intros Hal Hpos Hr Hs Hmode. unfold BamFilter.filter_body. cbv zeta.
  rewrite bind_run, (isSplicedRead_run al a h Hal), Hs.
  rewrite bind_run.
  assert (Hsingle :
    match BamFilter.clipMode self return M bool with
    | BamFilter.COMPLETE => mret true
    | _ => msr ← isMultiplySplicedRead al; mret (negb msr)
    end h = Some (true, h)).
  { destruct Hmode as [-> | Hmsr]; [done|].
    destruct (BamFilter.clipMode self); [| |done];
      by rewrite bind_run, (isMultiplySplicedRead_run al a h Hal), Hmsr. }
  rewrite Hsingle.
  rewrite bind_run, (containsJunctionInSystem_spec al a refs r js h Hal Hpos Hr).
  destruct (existsb _ _); [|done].
  by rewrite bind_run, (write_run _ al a h Hal).
Qed.

Lemma filter_body_msr (self : BamFilter.t) (refs : list RefSeq.t)
  (r : RefSeq.t) (js : gset (Z * Z * Z)) (al : loc) (a : BamAlignment.t)
  (st : BamFilter.Run) (h : Heap) :
  h !! al = Some a → 0 ≤ BamAlignment.refId a →
  refs !! Z.to_nat (BamAlignment.refId a) = Some r →
  BamAlignment.isSplicedRead a = true →
  BamFilter.clipMode self ≠ BamFilter.COMPLETE →
  BamAlignment.isMultiplySplicedRead a = true →
  BamFilter.filter_body self refs js al st h
  = Some (if allBadOf (refSeqOf a r) js (BamAlignment.position a)
               (BamAlignment.cigar a)
          then discardRun st
          else clippedRun (BamFilter.saveMSRs self) st a
                 (BamAlignment.withCigar a
                    (clippedCigar
                       (BamFilter.modOpOf (BamFilter.clipMode self))
                       (refSeqOf a r) js (BamAlignment.position a)
                       (BamAlignment.cigar a))), h).
Proof.
  intros Hal Hpos Hr Hs Hmode Hmsr. unfold BamFilter.filter_body. cbv zeta.
  rewrite bind_run, (isSplicedRead_run al a h Hal), Hs.
  rewrite bind_run.
  assert (Hsingle :
    match BamFilter.clipMode self return M bool with
    | BamFilter.COMPLETE => mret true
    | _ => msr ← isMultiplySplicedRead al; mret (negb msr)
    end h = Some (false, h)).
  { destruct (BamFilter.clipMode self); [| |done];
      by rewrite bind_run, (isMultiplySplicedRead_run al a h Hal), Hmsr. }
  rewrite Hsingle.
  rewrite bind_run, (clipMSR_spec self al a refs r js h Hal Hpos Hr).
  set (m := fresh (dom h)).
  assert (Hfresh : h !! m = None) by apply fresh_not_in.
  assert (Hne : al ≠ m) by (intros ->; congruence).
  set (a' := BamAlignment.withCigar a _).
  set (h1 := <[m := a']> h).
  assert (Hal1 : h1 !! al = Some a) by (unfold h1; by rewrite lookup_insert_ne).
  assert (Hm1 : h1 !! m = Some a') by (unfold h1; by rewrite lookup_insert_eq).
  assert (Hrel : release m h1 = Some (tt, h)).
  { unfold release. rewrite Hm1. unfold h1. by rewrite delete_insert_id. }
  rewrite bind_run. subst h1.
  destruct (allBadOf _ _ _ _); cbn [negb].
  - rewrite ret_run. cbv beta iota. by rewrite bind_run, Hrel.
  - rewrite bind_run, (write_run _ m a' _ Hm1), bind_run.
    destruct (BamFilter.saveMSRs self).
    + rewrite bind_run, (write_run _ m a' _ Hm1).
      rewrite bind_run, (write_run _ al a _ Hal1).
      rewrite !ret_run. cbv beta iota. by rewrite bind_run, Hrel.
    + rewrite !ret_run. cbv beta iota. by rewrite bind_run, Hrel.
Qed.

(** ** Consequences for the returned record *)

Lemma clippedCigar_Forall2 modOp ref js lStart orig :
  Forall2 (clipOf modOp) orig (clippedCigar modOp ref js lStart orig).
Proof.
  apply Forall2_same_length_lookup. split.
  - by rewrite clippedCigar_length.
  - intros i o o' Ho Ho'.
    destruct (clippedCigar_entry modOp ref js lStart orig i)
      as [Heq | (o2 & Ho2 & Hns & Heq)].
    + left. congruence.
    + right. rewrite Ho in Ho2. injection Ho2 as <-. split; [done|congruence].
Qed.

Lemma clipOf_lengths modOp (orig out : list CigarOp.t) :
  Forall2 (clipOf modOp) orig out →
  CigarOp.length <$> out = CigarOp.length <$> orig.
Proof.
  induction 1 as [|o o' orig out [-> | [_ ->]] _ IH]; cbn; by rewrite ?IH.
Qed.

Lemma clipOf_totalLength modOp (orig out : list CigarOp.t) :
  Forall2 (clipOf modOp) orig out → totalLengthOf out = totalLengthOf orig.
Proof.
  induction 1 as [|o o' orig out Ho _ IH]; [done|].
  change (CigarOp.length o' + totalLengthOf out
          = CigarOp.length o + totalLengthOf orig).
  rewrite IH. by destruct Ho as [-> | [_ ->]].
Qed.

Lemma clipOf_alignedLength modOp (orig out : list CigarOp.t) :
  CigarOp.opConsumesReference modOp = false →
  Forall2 (clipOf modOp) orig out →
  alignedLengthOf out = alignedLengthOf orig - clippedRefLength orig out.
Proof.
  intros Hmod. induction 1 as [|o o' orig out Ho _ IH]; [done|].
  change (refLength o' + alignedLengthOf out
          = refLength o + alignedLengthOf orig
            - ((if Ascii.eqb (CigarOp.type o) (CigarOp.type o') then 0
                else refLength o) + clippedRefLength orig out)).
  rewrite IH. destruct Ho as [-> | [_ ->]].
  - rewrite Ascii.eqb_refl. lia.
  - unfold refLength at 1. cbn. rewrite Hmod.
    destruct (Ascii.eqb_spec (CigarOp.type o) modOp) as [Heq|_]; [|lia].
    unfold refLength. rewrite Heq, Hmod. lia.
Qed.

Lemma existsb_derived_split (ref : RefSeq.t) (js : gset (Z * Z * Z)) (l : Z)
  (pre post : list CigarOp.t) (op : CigarOp.t) :
  isSkip op = true →
  getJunction js (intronAt ref (cursorAfter l pre) op) = true →
  existsb (getJunction js) (derivedIntrons ref l (pre ++ op :: post)) = true.
Proof.
  intros Hskip Hj. rewrite derivedIntrons_app, existsb_app. cbn.
  rewrite Hskip. cbn. rewrite Hj. by rewrite orb_true_r.
Qed.

Lemma allBadOf_true (ref : RefSeq.t) (js : gset (Z * Z * Z)) (l : Z)
  (ops : list CigarOp.t) :
  allBadOf ref js l ops = true ↔
  Forall (λ J, getJunction js J = false) (derivedIntrons ref l ops).
Proof.
  unfold allBadOf. rewrite negb_true_iff, Forall_forall. split.
  - intros Hex J HJ. apply not_true_is_false. intros Htr.
    assert (existsb (getJunction js) (derivedIntrons ref l ops) = true);
      [|congruence].
    apply existsb_exists. exists J. by rewrite <- list_elem_of_In.
  - intros Hall. apply not_true_is_false. rewrite existsb_exists.
    intros (J & HJ & Htr). apply list_elem_of_In in HJ.
    specialize (Hall J HJ). congruence.
Qed.

Lemma msr_is_spliced (a : BamAlignment.t) :
  BamAlignment.isMultiplySplicedRead a = true →
  BamAlignment.isSplicedRead a = true.
Proof.
  unfold BamAlignment.isMultiplySplicedRead, BamAlignment.isSplicedRead.
  rewrite !bool_decide_eq_true. lia.
Qed.

Lemma ex_al_validRef : validRef ex_refs ex_al.
Proof. split; [vm_compute; discriminate | by exists ex_ref]. Defined.

(** * The claims *)

(** ** The worked example of the spec *)

(** C1 (as the code has it).  For the operations
    [50M 200N 30M 500N 20M], when the intron the engine derives at the
    first skip is in the junction system and the one it derives at the
    second skip is not, Hard mode returns [50M 200N 30M 500N 20H] and
    [allBad = false]: the segment after the trusted junction and both
    skips are kept, only the operations after the untrusted skip are
    clipped. *)
Theorem clipMSR_hard_trusted_then_untrusted (self : BamFilter.t) (al : loc)
  (a : BamAlignment.t) (refs : list RefSeq.t) (r : RefSeq.t)
  (js : gset (Z * Z * Z)) (h : Heap) :
  BamFilter.clipMode self = BamFilter.HARD →
  h !! al = Some a → 0 ≤ BamAlignment.refId a →
  refs !! Z.to_nat (BamAlignment.refId a) = Some r →
  BamAlignment.cigar a = ex_cigar →
  getJunction js <$>
    derivedIntrons (refSeqOf a r) (BamAlignment.position a)
      (BamAlignment.cigar a) = [true; false] →
  BamFilter.clipMSR self al refs js h
  = Some ((fresh (dom h), false),
          <[fresh (dom h) :=
              BamAlignment.withCigar a
                [CigarOp.mk "M" 50; CigarOp.mk "N" 200; CigarOp.mk "M" 30;
                 CigarOp.mk "N" 500; CigarOp.mk "H" 20]]> h).
Proof.
  intros Hmode Hal Hpos Hr Hcig Hj.
  rewrite (clipMSR_spec self al a refs r js h Hal Hpos Hr), Hmode.
  unfold allBadOf. rewrite Hcig in *.
  cbn -[wrap32 getJunction intronAt] in Hj.
  injection Hj as Hj1 Hj2.
  assert (Hbad : negb (existsb (getJunction js)
             (derivedIntrons (refSeqOf a r) (BamAlignment.position a) ex_cigar))
           = false).
  { cbn -[wrap32 getJunction intronAt]. by rewrite Hj1. }
  rewrite Hbad. do 3 f_equal.
  unfold clippedCigar, clipTurns.
  cbn -[wrap32 getJunction intronAt clipRange].
  rewrite !Hj1. cbn -[wrap32 getJunction intronAt clipRange].
  rewrite !Hj2. unfold nextCigar.
  cbn -[wrap32 getJunction intronAt clipRange].
  rewrite Hj1, Hj2. reflexivity.
Qed.

Lemma clipMSR_hard_trusted_then_untrusted_witness :
  BamFilter.clipMSR ex_hard 1%positive ex_refs ex_js ex_heap
  = Some ((fresh (dom ex_heap), false),
          <[fresh (dom ex_heap) :=
              BamAlignment.withCigar ex_al
                [CigarOp.mk "M" 50; CigarOp.mk "N" 200; CigarOp.mk "M" 30;
                 CigarOp.mk "N" 500; CigarOp.mk "H" 20]]> ex_heap).
Proof.
  apply (clipMSR_hard_trusted_then_untrusted ex_hard 1%positive ex_al ex_refs
           ex_ref ex_js ex_heap).
  - reflexivity.
  - reflexivity.
  - vm_compute. discriminate.
  - reflexivity.
  - reflexivity.
  - vm_compute. reflexivity.
Defined.

(** C1, the claim as stated fails: on the worked input, with only the
    first intron trusted, Hard mode returns [50M 200N 30M 500N 20H], not
    [50M 200N 30H 500H 20H]. *)
Lemma clipMSR_hard_example_not_as_claimed :
  ∃ (m : loc) (h' : Heap) (a' : BamAlignment.t),
    BamFilter.clipMSR ex_hard 1%positive ex_refs ex_js ex_heap
    = Some ((m, false), h') ∧
    h' !! m = Some a' ∧
    BamAlignment.cigar a'
    = [CigarOp.mk "M" 50; CigarOp.mk "N" 200; CigarOp.mk "M" 30;
       CigarOp.mk "N" 500; CigarOp.mk "H" 20] ∧
    BamAlignment.cigar a'
    ≠ [CigarOp.mk "M" 50; CigarOp.mk "N" 200; CigarOp.mk "H" 30;
       CigarOp.mk "H" 500; CigarOp.mk "H" 20].
Proof.
  eexists _, _, _. split; [vm_compute; reflexivity|].
  split; [vm_compute; reflexivity|]. split; [reflexivity|discriminate].
Qed.

(** ** Where the derived introns lie *)

(** C2, the code at a read with two skips.  The read starts at 100, so
    its second skip spans the reference positions 380 to 879
    (100 + 50 + 200 + 30, and 500 long).  Both functions look up
    [180, 679] instead: the cursor is not moved over the first skip.
    With [380, 879] trusted the containment check answers false and
    [clipMSR] reports [allBad]; with [180, 679] trusted the check answers
    true and [clipMSR] reports a trusted junction. *)
Theorem second_skip_intron_misses_first_skip :
  BamFilter.containsJunctionInSystem 1%positive ex_refs {[ (0, 380, 879) ]}
    ex_heap = Some (false, ex_heap) ∧
  BamFilter.containsJunctionInSystem 1%positive ex_refs {[ (0, 180, 679) ]}
    ex_heap = Some (true, ex_heap) ∧
  (∃ (m : loc) (h' : Heap),
     BamFilter.clipMSR ex_hard 1%positive ex_refs {[ (0, 380, 879) ]} ex_heap
     = Some ((m, true), h')) ∧
  (∃ (m : loc) (h' : Heap),
     BamFilter.clipMSR ex_hard 1%positive ex_refs {[ (0, 180, 679) ]} ex_heap
     = Some ((m, false), h')) ∧
  derivedIntrons ex_ref 100 ex_cigar
  = [Intron.mk ex_ref 150 349;
     Intron.mk ex_ref 180 679].
Proof.
  split; [vm_compute; reflexivity|]. split; [vm_compute; reflexivity|].
  split; [eexists _, _; vm_compute; reflexivity|].
  split; [eexists _, _; vm_compute; reflexivity|].
  vm_compute; reflexivity.
Qed.

(** ** The rewritten ranges *)

(** C3 (as the code has it).  In one turn of the [clipMSR] loop at a
    skip [i] whose intron is not in the junction system, the operations
    of the copy at the indices from [opStart] up to but excluding [i]
    take the clip kind, each with the length the input has there; if
    the previous evaluated junction was trusted ([lastGood]) the range
    starts at [i] and is empty, so the turn rewrites nothing.  The skip
    at [i] itself and every entry outside the range keep their value,
    [opStart] becomes [i + 1] and [lastGood] false.  After the loop, if
    [lastGood] is false, the operations from [opStart] to the last index
    take the clip kind in the same way; if it is true nothing is
    rewritten. *)
Theorem clipMSR_untrusted_ranges (modOp : ascii) (al m : loc)
  (a am : BamAlignment.t) (ref : RefSeq.t) (js : gset (Z * Z * Z)) (h : Heap) :
  al ≠ m → h !! al = Some a → h !! m = Some am →
  List.length (BamAlignment.cigar am) = List.length (BamAlignment.cigar a) →
  let clip := λ o : CigarOp.t, CigarOp.mk modOp (CigarOp.length o) in
  (∀ (i : nat) (op : CigarOp.t) (s : BamFilter.Vars),
     BamAlignment.cigar a !! i = Some op →
     CigarOp.type op = BAM_CIGAR_REFSKIP_CHAR →
     getJunction js (intronAt ref (BamFilter.lEnd s) op) = false →
     ∃ (s' : BamFilter.Vars) (am' : BamAlignment.t),
       BamFilter.clipMSR_body modOp al m ref js i s h
       = Some (s', <[m := am']> h) ∧
       BamFilter.opStart s' = (i + 1)%nat ∧
       BamFilter.lastGood s' = false ∧
       am' = BamAlignment.withCigar am (BamAlignment.cigar am') ∧
       ∀ j : nat,
         BamAlignment.cigar am' !! j
         = if bool_decide
                ((if BamFilter.lastGood s then i else BamFilter.opStart s) ≤ j
                 < i)%nat
           then clip <$> BamAlignment.cigar a !! j
           else BamAlignment.cigar am !! j) ∧
  (∀ s : BamFilter.Vars,
     BamFilter.lastGood s = false →
     ∃ am' : BamAlignment.t,
       BamFilter.clipMSR_tail modOp al m
         (List.length (BamAlignment.cigar a)) s h
       = Some (tt, <[m := am']> h) ∧
       am' = BamAlignment.withCigar am (BamAlignment.cigar am') ∧
       ∀ j : nat,
         BamAlignment.cigar am' !! j
         = if bool_decide
                (BamFilter.opStart s ≤ j
                 < List.length (BamAlignment.cigar a))%nat
           then clip <$> BamAlignment.cigar a !! j
           else BamAlignment.cigar am !! j) ∧
  (∀ s : BamFilter.Vars,
     BamFilter.lastGood s = true →
     BamFilter.clipMSR_tail modOp al m
       (List.length (BamAlignment.cigar a)) s h
     = Some (tt, h)).
Proof.
  intros Hne Hal Hm Hlen clip.
  assert (Hrange : ∀ lo hi j : nat,
    clipRange modOp (BamAlignment.cigar a) lo hi (BamAlignment.cigar am) !! j
    = if bool_decide (lo ≤ j < hi)%nat
      then clip <$> BamAlignment.cigar a !! j
      else BamAlignment.cigar am !! j).
  { intros lo hi j. rewrite clipRange_lookup. case_bool_decide; [|done].
    destruct (BamAlignment.cigar a !! j) as [o|] eqn:Ho; cbn.
    - destruct (lookup_lt_is_Some_2 (BamAlignment.cigar am) j) as [c ->]; [|done].
      apply lookup_lt_Some in Ho. lia.
    - apply lookup_ge_None. apply lookup_ge_None in Ho. lia. }
  split; [|split].
  - intros i op s Hop Hty Hj. apply isSkip_true in Hty.
    eexists _, _. split.
    + apply (clipMSR_body_run modOp al m a am ref js i op s h); done.
    + unfold nextVars, nextCigar. rewrite Hty, Hj. cbn.
      split; [done|]. split; [done|]. split; [done|]. apply Hrange.
  - intros s Hlast. eexists. split.
    + unfold BamFilter.clipMSR_tail. rewrite Hlast.
      apply (clipOps_run modOp al m a am); done.
    + cbn. split; [done|]. apply Hrange.
  - intros s Hlast. unfold BamFilter.clipMSR_tail. by rewrite Hlast.
Qed.

Lemma clipMSR_untrusted_ranges_witness :
  BamAlignment.isMultiplySplicedRead ex5_al = true ∧
  (∃ (s' : BamFilter.Vars) (am' : BamAlignment.t),
     BamFilter.clipMSR_body "H" 1%positive 2%positive ex_ref ∅ 1
       (BamFilter.mkVars 110 100 0 false true) ex5_pair
     = Some (s', <[2%positive := am']> ex5_pair) ∧
     BamFilter.opStart s' = 2%nat ∧ BamFilter.lastGood s' = false ∧
     BamAlignment.cigar am' !! 0%nat = Some (CigarOp.mk "H" 10) ∧
     BamAlignment.cigar am' !! 1%nat = Some (CigarOp.mk "N" 5)) ∧
  (∃ (s' : BamFilter.Vars) (am' : BamAlignment.t),
     BamFilter.clipMSR_body "H" 1%positive 2%positive ex_ref ex_js 3
       (BamFilter.mkVars 180 350 2 true false) ex_pair
     = Some (s', <[2%positive := am']> ex_pair) ∧
     BamFilter.opStart s' = 4%nat ∧ BamFilter.lastGood s' = false ∧
     BamAlignment.cigar am' !! 2%nat = Some (CigarOp.mk "M" 30) ∧
     BamAlignment.cigar am' !! 3%nat = Some (CigarOp.mk "N" 500)) ∧
  (∃ am' : BamAlignment.t,
     BamFilter.clipMSR_tail "H" 1%positive 2%positive 5
       (BamFilter.mkVars 180 680 4 false false) ex_pair
     = Some (tt, <[2%positive := am']> ex_pair) ∧
     BamAlignment.cigar am' !! 3%nat = Some (CigarOp.mk "N" 500) ∧
     BamAlignment.cigar am' !! 4%nat = Some (CigarOp.mk "H" 20)).
Proof.
  split; [reflexivity|]. split; [|split].
  - destruct (clipMSR_untrusted_ranges "H" 1%positive 2%positive ex5_al ex5_al
                ex_ref ∅ ex5_pair) as (Hturn & _ & _).
    + discriminate.
    + reflexivity.
    + reflexivity.
    + reflexivity.
    + destruct (Hturn 1%nat (CigarOp.mk "N" 5)
                  (BamFilter.mkVars 110 100 0 false true))
        as (s' & am' & Hrun & Hstart & Hlast & _ & Hcig).
      * reflexivity.
      * reflexivity.
      * vm_compute. reflexivity.
      * exists s', am'. split; [assumption|]. split; [assumption|].
        split; [assumption|]. split; rewrite Hcig; reflexivity.
  - destruct (clipMSR_untrusted_ranges "H" 1%positive 2%positive ex_al ex_al
                ex_ref ex_js ex_pair) as (Hturn & _ & _).
    + discriminate.
    + reflexivity.
    + reflexivity.
    + reflexivity.
    + destruct (Hturn 3%nat (CigarOp.mk "N" 500)
                  (BamFilter.mkVars 180 350 2 true false))
        as (s' & am' & Hrun & Hstart & Hlast & _ & Hcig).
      * reflexivity.
      * reflexivity.
      * vm_compute. reflexivity.
      * exists s', am'. split; [assumption|]. split; [assumption|].
        split; [assumption|]. split; rewrite Hcig; reflexivity.
  - destruct (clipMSR_untrusted_ranges "H" 1%positive 2%positive ex_al ex_al
                ex_ref ex_js ex_pair) as (_ & Htail & _).
    + discriminate.
    + reflexivity.
    + reflexivity.
    + reflexivity.
    + destruct (Htail (BamFilter.mkVars 180 680 4 false false) eq_refl)
        as (am' & Hrun & _ & Hcig).
      exists am'. split; [exact Hrun|]. split; rewrite Hcig; reflexivity.
Defined.

(** C3, the claim as stated fails, on multiply-spliced reads.
    First, [10M 5N 10M 5N 10M] with nothing trusted: the loop reaches
    the skip at index 1 with the pending region starting at 0; the turn
    rewrites index 0 only, and the skip at index 1, the upper end of
    the claimed range [0, 1], keeps its kind; the record [clipMSR]
    returns is [10H 5N 10H 5N 10H], both skips kept.  Second,
    [50M 200N 30M 500N 20M] with only the first intron trusted: the
    loop reaches the skip at index 3 with [lastGood] set; the claimed
    range starts at index 3 itself, yet the turn rewrites nothing and
    the skip stays [500N]. *)
Lemma clipMSR_skip_index_not_rewritten :
  BamAlignment.isMultiplySplicedRead ex5_al = true ∧
  forRange 0 1 (BamFilter.clipMSR_body "H" 1%positive 2%positive ex_ref ∅)
    (BamFilter.mkVars 100 100 0 false true) ex5_pair
  = Some (BamFilter.mkVars 110 100 0 false true, ex5_pair) ∧
  BamFilter.clipMSR_body "H" 1%positive 2%positive ex_ref ∅ 1
    (BamFilter.mkVars 110 100 0 false true) ex5_pair
  = Some (BamFilter.mkVars 110 115 2 false true,
          {[ 1%positive := ex5_al;
             2%positive :=
               BamAlignment.withCigar ex5_al
                 [CigarOp.mk "H" 10; CigarOp.mk "N" 5; CigarOp.mk "M" 10;
                  CigarOp.mk "N" 5; CigarOp.mk "M" 10] ]}) ∧
  (∃ (m : loc) (h' : Heap) (a' : BamAlignment.t),
     BamFilter.clipMSR ex_hard 1%positive ex_refs ∅ {[ 1%positive := ex5_al ]}
     = Some ((m, true), h') ∧
     h' !! m = Some a' ∧
     BamAlignment.cigar a'
     = [CigarOp.mk "H" 10; CigarOp.mk "N" 5; CigarOp.mk "H" 10;
        CigarOp.mk "N" 5; CigarOp.mk "H" 10] ∧
     BamAlignment.cigar a' !! 1%nat ≠ Some (CigarOp.mk "H" 5) ∧
     BamAlignment.cigar a' !! 3%nat ≠ Some (CigarOp.mk "H" 5)) ∧
  BamAlignment.isMultiplySplicedRead ex_al = true ∧
  forRange 0 3 (BamFilter.clipMSR_body "H" 1%positive 2%positive ex_ref ex_js)
    (BamFilter.mkVars 100 100 0 false true) ex_pair
  = Some (BamFilter.mkVars 180 350 2 true false, ex_pair) ∧
  BamFilter.clipMSR_body "H" 1%positive 2%positive ex_ref ex_js 3
    (BamFilter.mkVars 180 350 2 true false) ex_pair
  = Some (BamFilter.mkVars 180 680 4 false false, ex_pair) ∧
  BamAlignment.cigar ex_al !! 3%nat ≠ Some (CigarOp.mk "H" 500).
Proof.
  split; [reflexivity|].
  split; [vm_compute; reflexivity|].
  split; [vm_compute; reflexivity|].
  split.
  { eexists _, _, _. split; [vm_compute; reflexivity|].
    split; [vm_compute; reflexivity|].
    split; [reflexivity|]. split; discriminate. }
  split; [reflexivity|].
  split; [vm_compute; reflexivity|].
  split; [vm_compute; reflexivity|].
  discriminate.
Qed.

(** ** Routing of a record *)

(** C4.  Routing of one record by the loop body of [filter]:
    an unspliced alignment is appended unchanged to the primary writer;
    a spliced one, in Complete mode or when not multiply-spliced, is
    appended unchanged if [containsJunctionInSystem] answers true and is
    dropped otherwise; a multiply-spliced one in Hard or Soft mode goes
    through [clipMSR], is dropped when [allBad], and otherwise the
    clipped record is appended to the primary writer and, with
    [saveMSRs], the clipped record to the [mod] writer and the original
    to the [unmod] writer.  The store is left as it was found. *)
Theorem filter_body_routes (self : BamFilter.t) (refs : list RefSeq.t)
  (js : gset (Z * Z * Z)) (al : loc) (a : BamAlignment.t)
  (st : BamFilter.Run) (h : Heap) :
  h !! al = Some a →
  (BamAlignment.isSplicedRead a = false →
   BamFilter.filter_body self refs js al st h = Some (passRun st a, h)) ∧
  (BamAlignment.isSplicedRead a = true → validRef refs a →
   BamFilter.clipMode self = BamFilter.COMPLETE ∨
     BamAlignment.isMultiplySplicedRead a = false →
   ∃ found : bool,
     BamFilter.containsJunctionInSystem al refs js h = Some (found, h) ∧
     BamFilter.filter_body self refs js al st h
     = Some (if found then passRun st a else discardRun st, h)) ∧
  (BamAlignment.isSplicedRead a = true → validRef refs a →
   BamFilter.clipMode self ≠ BamFilter.COMPLETE →
   BamAlignment.isMultiplySplicedRead a = true →
   ∃ (m : loc) (allBad : bool) (h' : Heap) (a' : BamAlignment.t),
     BamFilter.clipMSR self al refs js h = Some ((m, allBad), h') ∧
     h' !! m = Some a' ∧
     BamFilter.filter_body self refs js al st h
     = Some (if allBad then discardRun st
             else clippedRun (BamFilter.saveMSRs self) st a a', h)).
Proof.
  intros Hal. split; [|split].
  - intros Hs. by apply filter_body_unspliced.
  - intros Hs [Hpos [r Hr]] Hmode. eexists. split.
    + apply (containsJunctionInSystem_spec al a refs r js h Hal Hpos Hr).
    + by apply filter_body_single.
  - intros Hs [Hpos [r Hr]] Hmode Hmsr. eexists _, _, _, _. split.
    + apply (clipMSR_spec self al a refs r js h Hal Hpos Hr).
    + split; [by rewrite lookup_insert_eq|].
      by apply filter_body_msr.
Qed.

Lemma filter_body_routes_witness :
  BamFilter.filter_body ex_hard ex_refs ex_js 1%positive ex_run
    {[ 1%positive := ex_unspliced ]}
  = Some (passRun ex_run ex_unspliced, {[ 1%positive := ex_unspliced ]}) ∧
  BamFilter.filter_body ex_hard ex_refs ex_js 1%positive ex_run
    {[ 1%positive := ex_single ]}
  = Some (passRun ex_run ex_single, {[ 1%positive := ex_single ]}) ∧
  ∃ a' : BamAlignment.t,
    BamFilter.filter_body ex_hard ex_refs ex_js 1%positive ex_run ex_heap
    = Some (clippedRun true ex_run ex_al a', ex_heap).
Proof.
  split; [|split].
  - apply (filter_body_routes ex_hard ex_refs ex_js 1%positive ex_unspliced
             ex_run {[ 1%positive := ex_unspliced ]});
      reflexivity.
  - destruct (filter_body_routes ex_hard ex_refs ex_js 1%positive ex_single
                ex_run {[ 1%positive := ex_single ]}) as (_ & Hsingle & _);
      [reflexivity|].
    destruct Hsingle as (found & Hfound & Hbody);
      [reflexivity
      | split; [vm_compute; discriminate | by exists ex_ref]
      | right; reflexivity |].
    rewrite Hbody.
    assert (Hf : found = true).
    { assert (Hc : BamFilter.containsJunctionInSystem 1%positive ex_refs ex_js
                     {[ 1%positive := ex_single ]}
                   = Some (true, {[ 1%positive := ex_single ]}))
        by (vm_compute; reflexivity).
      rewrite Hc in Hfound. by injection Hfound. }
    by rewrite Hf.
  - destruct (filter_body_routes ex_hard ex_refs ex_js 1%positive ex_al
                ex_run ex_heap) as (_ & _ & Hmsr); [reflexivity|].
    destruct Hmsr as (m & allBad & h' & a' & Hclip & Hm & Hbody);
      [reflexivity | exact ex_al_validRef | discriminate | reflexivity |].
    exists a'. rewrite Hbody.
    assert (Hb : allBad = false).
    { assert (Hc : ∃ m1 h1, BamFilter.clipMSR ex_hard 1%positive ex_refs ex_js
                              ex_heap = Some ((m1, false), h1))
        by (eexists _, _; vm_compute; reflexivity).
      destruct Hc as (m1 & h1 & Hc). rewrite Hc in Hclip.
      by injection Hclip. }
    by rewrite Hb.
Defined.

(** ** [allBad] *)

(** C5.  For a multiply-spliced alignment [clipMSR] reports
    [allBad = true] exactly when none of the introns derived during its
    pass is in the junction system; and when it does, the record loop,
    in whatever clip mode and with or without the auxiliary writers,
    appends nothing to any of the three writers for that alignment. *)
Theorem allBad_iff_none_trusted_and_discarded (self : BamFilter.t) (al : loc)
  (a : BamAlignment.t) (refs : list RefSeq.t) (r : RefSeq.t)
  (js : gset (Z * Z * Z)) (h : Heap) :
  h !! al = Some a → 0 ≤ BamAlignment.refId a →
  refs !! Z.to_nat (BamAlignment.refId a) = Some r →
  BamAlignment.isMultiplySplicedRead a = true →
  ∃ (m : loc) (allBad : bool) (h' : Heap),
    BamFilter.clipMSR self al refs js h = Some ((m, allBad), h') ∧
    (allBad = true ↔
       Forall (λ J, getJunction js J = false)
         (derivedIntrons (refSeqOf a r) (BamAlignment.position a)
            (BamAlignment.cigar a))) ∧
    (allBad = true →
     ∀ (cfg : BamFilter.t) (st : BamFilter.Run),
     ∃ st', BamFilter.filter_body cfg refs js al st h = Some (st', h) ∧
            BamFilter.writer st' = BamFilter.writer st ∧
            BamFilter.modWriter st' = BamFilter.modWriter st ∧
            BamFilter.unmodWriter st' = BamFilter.unmodWriter st).
Proof.
  intros Hal Hpos Hr Hmsr.
  eexists _, _, _. split; [apply (clipMSR_spec self al a refs r js h Hal Hpos Hr)|].
  split; [apply allBadOf_true|].
  intros Hbad cfg st. exists (discardRun st). split; [|done].
  pose proof (msr_is_spliced a Hmsr) as Hs.
  destruct (decide (BamFilter.clipMode cfg = BamFilter.COMPLETE)) as [Hc|Hc].
  - rewrite (filter_body_single cfg refs r js al a st h Hal Hpos Hr Hs (or_introl Hc)).
    unfold allBadOf in Hbad. apply negb_true_iff in Hbad. by rewrite Hbad.
  - rewrite (filter_body_msr cfg refs r js al a st h Hal Hpos Hr Hs Hc Hmsr).
    by rewrite Hbad.
Qed.

Lemma allBad_iff_none_trusted_and_discarded_witness :
  ∃ (m : loc) (h' : Heap),
    BamFilter.clipMSR ex_hard 1%positive ex_refs ∅ ex_heap
    = Some ((m, true), h') ∧
    ∃ st', BamFilter.filter_body ex_hard ex_refs ∅ 1%positive ex_run ex_heap
           = Some (st', ex_heap) ∧
           BamFilter.writer st' = [] ∧ BamFilter.modWriter st' = [] ∧
           BamFilter.unmodWriter st' = [].
Proof.
  destruct (allBad_iff_none_trusted_and_discarded ex_hard 1%positive ex_al
              ex_refs ex_ref ∅ ex_heap)
    as (m & allBad & h' & Hrun & Hiff & Hdrop).
  - reflexivity.
  - vm_compute. discriminate.
  - reflexivity.
  - reflexivity.
  - assert (Hbad : allBad = true).
    { apply Hiff. repeat constructor. }
    exists m, h'. split; [by rewrite <- Hbad|].
    apply (Hdrop Hbad ex_hard ex_run).
Defined.

(** ** Shape of the result and the input record *)

(** C6.  Whatever the clip mode, [clipMSR] returns a handle [m] that was
    not in use before the call, the record stored under the input handle
    [al] and every other record of the store are exactly as before, and
    the record under [m] has as many operations as the input, with the
    same length at every index; it differs from the input in its
    operation vector only. *)
Theorem clipMSR_fresh_copy_same_lengths (self : BamFilter.t) (al : loc)
  (a : BamAlignment.t) (refs : list RefSeq.t) (js : gset (Z * Z * Z))
  (h : Heap) :
  h !! al = Some a → validRef refs a →
  ∃ (m : loc) (allBad : bool) (h' : Heap) (a' : BamAlignment.t),
    BamFilter.clipMSR self al refs js h = Some ((m, allBad), h') ∧
    m ≠ al ∧ h !! m = None ∧ h' !! m = Some a' ∧
    h' !! al = Some a ∧ (∀ l, l ≠ m → h' !! l = h !! l) ∧
    List.length (BamAlignment.cigar a') = List.length (BamAlignment.cigar a) ∧
    (∀ i : nat, CigarOp.length <$> BamAlignment.cigar a' !! i
                = CigarOp.length <$> BamAlignment.cigar a !! i) ∧
    a' = BamAlignment.withCigar a (BamAlignment.cigar a').
Proof.
  intros Hal [Hpos [r Hr]].
  pose proof (fresh_not_in h) as Hfresh.
  assert (Hne : fresh (dom h) ≠ al) by (intros Heq; rewrite Heq in Hfresh; congruence).
  eexists _, _, _, _. split; [apply (clipMSR_spec self al a refs r js h Hal Hpos Hr)|].
  split; [done|]. split; [done|]. split; [by rewrite lookup_insert_eq|].
  split; [by rewrite lookup_insert_ne|].
  split; [intros l Hl; by rewrite lookup_insert_ne|].
  split; [apply clippedCigar_length|].
  split; [|done].
  intros i. cbn [BamAlignment.cigar BamAlignment.withCigar].
  rewrite <- !list_lookup_fmap. f_equal.
  eapply clipOf_lengths, clippedCigar_Forall2.
Qed.

Lemma clipMSR_fresh_copy_same_lengths_witness :
  ∃ (m : loc) (allBad : bool) (h' : Heap) (a' : BamAlignment.t),
    BamFilter.clipMSR ex_hard 1%positive ex_refs ex_js ex_heap
    = Some ((m, allBad), h') ∧
    m ≠ 1%positive ∧ h' !! m = Some a' ∧ h' !! 1%positive = Some ex_al ∧
    List.length (BamAlignment.cigar a') = 5%nat.
Proof.
  destruct (clipMSR_fresh_copy_same_lengths ex_hard 1%positive ex_al ex_refs
              ex_js ex_heap)
    as (m & allBad & h' & a' & Hrun & Hne & _ & Hm & Hal & _ & Hlen & _).
  - reflexivity.
  - exact ex_al_validRef.
  - exists m, allBad, h', a'. repeat split; assumption.
Defined.

(** ** Aligned length *)

(** C7 (as the code has it).  In Hard and Soft mode the sum of the
    lengths of the reference-consuming operations of the record
    [clipMSR] returns is the sum for the input minus the lengths of the
    reference-consuming operations whose kind was rewritten; in every
    mode the sum of the lengths of all operations is that of the
    input, and the [alignedLength] field of the record is the
    input's. *)
Theorem clipMSR_aligned_length (self : BamFilter.t) (al : loc)
  (a : BamAlignment.t) (refs : list RefSeq.t) (js : gset (Z * Z * Z))
  (h : Heap) :
  h !! al = Some a → validRef refs a →
  ∃ (m : loc) (allBad : bool) (h' : Heap) (a' : BamAlignment.t),
    BamFilter.clipMSR self al refs js h = Some ((m, allBad), h') ∧
    h' !! m = Some a' ∧
    BamAlignment.alignedLength a' = BamAlignment.alignedLength a ∧
    totalLengthOf (BamAlignment.cigar a')
    = totalLengthOf (BamAlignment.cigar a) ∧
    (BamFilter.clipMode self ≠ BamFilter.COMPLETE →
     alignedLengthOf (BamAlignment.cigar a')
     = alignedLengthOf (BamAlignment.cigar a)
       - clippedRefLength (BamAlignment.cigar a) (BamAlignment.cigar a')).
Proof.
  intros Hal [Hpos [r Hr]].
  eexists _, _, _, _. split; [apply (clipMSR_spec self al a refs r js h Hal Hpos Hr)|].
  split; [by rewrite lookup_insert_eq|]. split; [done|].
  cbn [BamAlignment.cigar BamAlignment.withCigar]. split.
  - eapply clipOf_totalLength, clippedCigar_Forall2.
  - intros Hmode. eapply clipOf_alignedLength; [|apply clippedCigar_Forall2].
    by destruct (BamFilter.clipMode self).
Qed.

Lemma clipMSR_aligned_length_witness :
  ∃ (m : loc) (allBad : bool) (h' : Heap) (a' : BamAlignment.t),
    BamFilter.clipMSR ex_hard 1%positive ex_refs ex_js ex_heap
    = Some ((m, allBad), h') ∧
    h' !! m = Some a' ∧
    totalLengthOf (BamAlignment.cigar a') = 800 ∧
    alignedLengthOf (BamAlignment.cigar a')
    = 800 - clippedRefLength ex_cigar (BamAlignment.cigar a').
Proof.
  destruct (clipMSR_aligned_length ex_hard 1%positive ex_al ex_refs ex_js
              ex_heap)
    as (m & allBad & h' & a' & Hrun & Hm & _ & Htot & Hal).
  - reflexivity.
  - exact ex_al_validRef.
  - exists m, allBad, h', a'. split; [assumption|]. split; [assumption|].
    split; [exact Htot|]. apply Hal. discriminate.
Defined.

(** C7, the claim as stated fails: on the worked input the
    reference-consuming lengths sum to 800 before and to 780 after
    clipping, the clipped [20M] no longer consuming the reference. *)
Lemma clipMSR_aligned_length_shrinks :
  ∃ (m : loc) (h' : Heap) (a' : BamAlignment.t),
    BamFilter.clipMSR ex_hard 1%positive ex_refs ex_js ex_heap
    = Some ((m, false), h') ∧
    h' !! m = Some a' ∧
    alignedLengthOf (BamAlignment.cigar ex_al) = 800 ∧
    alignedLengthOf (BamAlignment.cigar a') = 780.
Proof.
  eexists _, _, _. split; [vm_compute; reflexivity|].
  split; [vm_compute; reflexivity|]. split; reflexivity.
Qed.

(** ** The containment check *)

(** C8.  [containsJunctionInSystem] returns, and leaves the store as it
    found it.  Its answer is true exactly when one of the introns the
    walk derives is in the junction system; in particular it is true
    whenever the operations read [pre ++ op :: post] with [op] a skip
    whose intron is in the system, whatever follows in [post], and false
    when no derived intron is in the system. *)
Theorem containsJunctionInSystem_any_match (al : loc) (a : BamAlignment.t)
  (refs : list RefSeq.t) (r : RefSeq.t) (js : gset (Z * Z * Z)) (h : Heap) :
  h !! al = Some a → 0 ≤ BamAlignment.refId a →
  refs !! Z.to_nat (BamAlignment.refId a) = Some r →
  let ref := refSeqOf a r in
  let lStart := BamAlignment.position a in
  ∃ found : bool,
    BamFilter.containsJunctionInSystem al refs js h = Some (found, h) ∧
    (found = true ↔
       ∃ J, J ∈ derivedIntrons ref lStart (BamAlignment.cigar a) ∧
            getJunction js J = true) ∧
    (∀ pre op post,
       BamAlignment.cigar a = pre ++ op :: post →
       CigarOp.type op = BAM_CIGAR_REFSKIP_CHAR →
       getJunction js (intronAt ref (cursorAfter lStart pre) op) = true →
       found = true) ∧
    (Forall (λ J, getJunction js J = false)
       (derivedIntrons ref lStart (BamAlignment.cigar a)) →
     found = false).
Proof.
  intros Hal Hpos Hr ref lStart.
  eexists. split; [apply (containsJunctionInSystem_spec al a refs r js h Hal Hpos Hr)|].
  fold ref lStart. split; [|split].
  - rewrite existsb_exists. split.
    + intros (J & HJ & Htr). exists J. by rewrite list_elem_of_In.
    + intros (J & HJ & Htr). exists J. by rewrite <- list_elem_of_In.
  - intros pre op post Hc Hty Hj. rewrite Hc.
    apply existsb_derived_split; [by apply isSkip_true|done].
  - intros Hall. apply not_true_is_false. rewrite existsb_exists.
    intros (J & HJ & Htr). rewrite Forall_forall in Hall.
    apply list_elem_of_In in HJ. specialize (Hall J HJ). congruence.
Qed.

Lemma containsJunctionInSystem_any_match_witness :
  BamFilter.containsJunctionInSystem 1%positive ex_refs ex_js ex_heap
  = Some (true, ex_heap).
Proof.
  destruct (containsJunctionInSystem_any_match 1%positive ex_al ex_refs ex_ref
              ex_js ex_heap)
    as (found & Hrun & _ & Hfirst & _).
  - reflexivity.
  - vm_compute. discriminate.
  - reflexivity.
  - rewrite Hrun.
    rewrite (Hfirst [CigarOp.mk "M" 50] (CigarOp.mk "N" 200)
               [CigarOp.mk "M" 30; CigarOp.mk "N" 500; CigarOp.mk "M" 20]);
      [reflexivity | reflexivity | reflexivity | vm_compute; reflexivity].
Defined.

(** ** Kinds that consume query and reference *)

(** C9.  [opConsumesQuery] answers true exactly for the kinds Match,
    Insertion, SoftClip, SeqMatch and SeqMismatch, and
    [opConsumesReference] exactly for Match, Deletion, ReferenceSkip,
    SeqMatch and SeqMismatch.  Both take the kind character and nothing
    else, so they are functions of the kind alone. *)
Theorem opConsumes_exact (op : ascii) :
  (CigarOp.opConsumesQuery op = true ↔
     op = BAM_CIGAR_MATCH_CHAR ∨ op = BAM_CIGAR_INS_CHAR ∨
     op = BAM_CIGAR_SOFTCLIP_CHAR ∨ op = BAM_CIGAR_EQUAL_CHAR ∨
     op = BAM_CIGAR_DIFF_CHAR) ∧
  (CigarOp.opConsumesReference op = true ↔
     op = BAM_CIGAR_MATCH_CHAR ∨ op = BAM_CIGAR_DEL_CHAR ∨
     op = BAM_CIGAR_REFSKIP_CHAR ∨ op = BAM_CIGAR_EQUAL_CHAR ∨
     op = BAM_CIGAR_DIFF_CHAR).
Proof.
  split; split.
  - destruct op as [[] [] [] [] [] [] [] []]; cbn; intros H;
      first [discriminate H | by auto 6].
  - intros [-> | [-> | [-> | [-> | ->]]]]; reflexivity.
  - destruct op as [[] [] [] [] [] [] [] []]; cbn; intros H;
      first [discriminate H | by auto 6].
  - intros [-> | [-> | [-> | [-> | ->]]]]; reflexivity.
Qed.

(** ** Skips are never rewritten *)

(** C10.  Whatever the clip mode, an operation that is a ReferenceSkip
    in the input is found unchanged, kind and length, at the same index
    of the record [clipMSR] returns. *)
Theorem clipMSR_keeps_skips (self : BamFilter.t) (al : loc)
  (a : BamAlignment.t) (refs : list RefSeq.t) (js : gset (Z * Z * Z))
  (h : Heap) :
  h !! al = Some a → validRef refs a →
  ∃ (m : loc) (allBad : bool) (h' : Heap) (a' : BamAlignment.t),
    BamFilter.clipMSR self al refs js h = Some ((m, allBad), h') ∧
    h' !! m = Some a' ∧
    ∀ (i : nat) (op : CigarOp.t),
      BamAlignment.cigar a !! i = Some op →
      CigarOp.type op = BAM_CIGAR_REFSKIP_CHAR →
      BamAlignment.cigar a' !! i = Some op.
Proof.
  intros Hal [Hpos [r Hr]].
  eexists _, _, _, _. split; [apply (clipMSR_spec self al a refs r js h Hal Hpos Hr)|].
  split; [by rewrite lookup_insert_eq|].
  intros i op Hop Hty. cbn [BamAlignment.cigar BamAlignment.withCigar].
  destruct (clippedCigar_entry
              (BamFilter.modOpOf (BamFilter.clipMode self)) (refSeqOf a r) js
              (BamAlignment.position a) (BamAlignment.cigar a) i)
    as [Heq | (o & Ho & Hns & _)].
  - by rewrite Heq.
  - rewrite Hop in Ho. injection Ho as <-.
    apply isSkip_false in Hns. done.
Qed.

Lemma clipMSR_keeps_skips_witness :
  ∃ (m : loc) (allBad : bool) (h' : Heap) (a' : BamAlignment.t),
    BamFilter.clipMSR ex_hard 1%positive ex_refs ex_js ex_heap
    = Some ((m, allBad), h') ∧
    h' !! m = Some a' ∧
    BamAlignment.cigar a' !! 1%nat = Some (CigarOp.mk "N" 200) ∧
    BamAlignment.cigar a' !! 3%nat = Some (CigarOp.mk "N" 500).
Proof.
  destruct (clipMSR_keeps_skips ex_hard 1%positive ex_al ex_refs ex_js ex_heap)
    as (m & allBad & h' & a' & Hrun & Hm & Hskip).
  - reflexivity.
  - exact ex_al_validRef.
  - exists m, allBad, h', a'. split; [assumption|]. split; [assumption|].
    split; apply Hskip; reflexivity.
Defined.

(** * Further properties of the code *)

(** ** Which operations [clipMSR] rewrites *)

(** In a region without skips that a skip (or the start) bounds on the
    left and a skip (or the end) on the right, the only skips next to an
    operation are those two. *)
Lemma adjacentSkip_bounds (orig : list CigarOp.t) (lo hi j p : nat) :
  (lo ≤ j < hi)%nat →
  (∀ i o, (lo ≤ i < hi)%nat → orig !! i = Some o → isSkip o = false) →
  (∀ q, lo = S q → ∃ op, orig !! q = Some op ∧ isSkip op = true) →
  (hi < List.length orig → ∃ op, orig !! hi = Some op ∧ isSkip op = true)%nat →
  adjacentSkip orig j p →
  S p = lo ∨ (p = hi ∧ (hi < List.length orig)%nat).
Proof.
  intros Hj Hns Hlo Hhi (Hne & (op & Hop & Hskip) & Hbetween).
  assert (Hout : (p < lo ∨ hi ≤ p)%nat).
  { destruct (decide (lo ≤ p < hi)%nat) as [Hin|]; [|lia].
    rewrite (Hns p op Hin Hop) in Hskip. discriminate. }
  pose proof (lookup_lt_Some _ _ _ Hop) as Hplen.
  destruct Hout as [Hlt | Hge].
  - left. destruct lo as [|q]; [lia|].
    destruct (decide (p = q)) as [->|Hpq]; [done|].
    destruct (Hlo q eq_refl) as (oq & Hoq & Hsq).
    rewrite (Hbetween q oq) in Hsq; [discriminate|lia|done].
  - right. split; [|lia].
    destruct (decide (p = hi)) as [->|Hph]; [done|].
    destruct Hhi as (oh & Hoh & Hsh); [lia|].
    rewrite (Hbetween hi oh) in Hsh; [discriminate|lia|done].
Qed.

Lemma trustedAt_skip (ref : RefSeq.t) (js : gset (Z * Z * Z)) (lStart : Z)
  (orig : list CigarOp.t) (p : nat) (op : CigarOp.t) :
  orig !! p = Some op → isSkip op = true →
  trustedAt ref js lStart orig p
  = getJunction js (intronAt ref (cursorAfter lStart (take p orig)) op).
Proof. intros Hop Hskip. unfold trustedAt. by rewrite Hop, Hskip. Qed.

Lemma clipTurns_segments (modOp : ascii) (ref : RefSeq.t)
  (js : gset (Z * Z * Z)) (lStart : Z) (orig : list CigarOp.t) (k : nat) :
  (k ≤ List.length orig)%nat →
  SegInv modOp ref js lStart orig (clipTurns modOp ref js lStart orig k).
Proof.
  induction k as [|k IH]; intros Hk.
  - split; cbn; [done | intros; lia | done | intros; lia | intros; lia].
  - destruct IH as [S1 S2 S3 S4 S5]; [lia|].
    destruct (clipTurns_inv modOp ref js lStart orig k) as [I1 I2 _ I4 _]; [lia|].
    pose proof (clipTurns_length modOp ref js lStart orig k) as Hlen.
    rewrite clipTurns_S.
    destruct (clipTurns modOp ref js lStart orig k) as [s c]. cbn in *.
    destruct (lookup_lt_is_Some_2 orig k) as [op Hop]; [lia|].
    unfold clipTurn. rewrite Hop. cbn [fst snd].
    unfold nextVars, nextCigar.
    destruct (isSkip op) eqn:Hskip; cbn [andb].
    2: { destruct (CigarOp.opConsumesReference (CigarOp.type op));
           split; cbn; done. }
    pose proof (trustedAt_skip ref js lStart orig k op Hop Hskip) as Htr.
    rewrite <- I4 in Htr.
    assert (Hadj : ∀ j p, (BamFilter.opStart s ≤ j < k)%nat →
              adjacentSkip orig j p → S p = BamFilter.opStart s ∨ p = k).
    { intros j p Hj Ha.
      destruct (adjacentSkip_bounds orig (BamFilter.opStart s) k j p Hj)
        as [?|[? _]]; try done; [|by eauto|by left|by right].
      intros q Hq. by destruct (S2 q Hq). }
    assert (Hleft : ∀ p, S p = BamFilter.opStart s →
              BamFilter.lastGood s = trustedAt ref js lStart orig p).
    { intros p Hp. by destruct (S2 p (eq_sym Hp)). }
    destruct (getJunction js (intronAt ref (BamFilter.lEnd s) op)) eqn:Hj;
      cbn [negb]; split; cbn.
    + lia.
    + intros p Hp. assert (p = k) as -> by lia. split; [by eauto|done].
    + intros j Hjk. apply S3. lia.
    + intros j p o Hjk Ho Ha Hp.
      destruct (decide (j < BamFilter.opStart s)%nat); [by eapply S4|].
      rewrite S3 by lia. done.
    + intros j o Hjk Ho Hns Hall.
      destruct (decide (j < BamFilter.opStart s)%nat); [by eapply S5|].
      destruct (decide (j = k)) as [->|]; [congruence|].
      assert (Hak : adjacentSkip orig j k).
      { split; [done|]. split; [by eauto|].
        intros i oi Hi Hoi. apply (I2 i oi); [lia|done]. }
      rewrite (Hall k Hak) in Htr. congruence.
    + lia.
    + intros p Hp. assert (p = k) as -> by lia. split; [by eauto|done].
    + intros j Hjk. rewrite clipRange_lookup.
      rewrite bool_decide_eq_false_2 by (destruct (BamFilter.lastGood s); lia).
      apply S3. lia.
    + intros j p o Hjk Ho Ha Hp. rewrite clipRange_lookup.
      destruct (decide (j < BamFilter.opStart s)%nat) as [Hlt|Hge].
      { rewrite bool_decide_eq_false_2 by (destruct (BamFilter.lastGood s); lia).
        by eapply S4. }
      destruct (decide (j = k)) as [->|Hne].
      { rewrite bool_decide_eq_false_2 by lia. rewrite S3 by lia. done. }
      destruct (Hadj j p) as [Hpl | ->]; [lia|done| |congruence].
      rewrite <- (Hleft p Hpl) in Hp. rewrite Hp.
      rewrite bool_decide_eq_false_2 by lia. rewrite S3 by lia. done.
    + intros j o Hjk Ho Hns Hall. rewrite clipRange_lookup.
      destruct (decide (j < BamFilter.opStart s)%nat) as [Hlt|Hge].
      { rewrite bool_decide_eq_false_2 by (destruct (BamFilter.lastGood s); lia).
        by eapply S5. }
      destruct (decide (j = k)) as [->|Hne]; [congruence|].
      assert (Hlg : BamFilter.lastGood s = false).
      { destruct (BamFilter.opStart s) as [|q] eqn:Hos; [by apply S1|].
        rewrite (Hleft q eq_refl). apply Hall.
        split; [lia|]. split; [by destruct (S2 q eq_refl)|].
        intros i oi Hi Hoi. apply (I2 i oi); [lia|done]. }
      rewrite Hlg, bool_decide_eq_true_2, Ho by lia.
      rewrite S3 by lia. by rewrite Ho.
Qed.

Lemma clippedCigar_segments (modOp : ascii) (ref : RefSeq.t)
  (js : gset (Z * Z * Z)) (lStart : Z) (orig : list CigarOp.t) (j : nat)
  (o : CigarOp.t) :
  orig !! j = Some o →
  (∀ p, adjacentSkip orig j p → trustedAt ref js lStart orig p = true →
        clippedCigar modOp ref js lStart orig !! j = Some o) ∧
  (isSkip o = false →
   (∀ p, adjacentSkip orig j p → trustedAt ref js lStart orig p = false) →
   clippedCigar modOp ref js lStart orig !! j
   = Some (CigarOp.mk modOp (CigarOp.length o))).
Proof.
  intros Ho. pose proof (lookup_lt_Some _ _ _ Ho) as Hjn.
  destruct (clipTurns_segments modOp ref js lStart orig (List.length orig))
    as [S1 S2 S3 S4 S5]; [done|].
  destruct (clipTurns_inv modOp ref js lStart orig (List.length orig))
    as [I1 I2 _ _ _]; [done|].
  unfold clippedCigar. cbv zeta.
  destruct (clipTurns modOp ref js lStart orig (List.length orig)) as [s c].
  cbn [fst snd] in *.
  assert (Hadj : ∀ p, (BamFilter.opStart s ≤ j)%nat → adjacentSkip orig j p →
            S p = BamFilter.opStart s).
  { intros p Hj Ha.
    destruct (adjacentSkip_bounds orig (BamFilter.opStart s)
                (List.length orig) j p) as [?|[_ ?]]; try done; try lia.
    intros q Hq. by destruct (S2 q Hq). }
  assert (Hleft : ∀ p, S p = BamFilter.opStart s →
            BamFilter.lastGood s = trustedAt ref js lStart orig p).
  { intros p Hp. by destruct (S2 p (eq_sym Hp)). }
  destruct (decide (j < BamFilter.opStart s)%nat) as [Hlt|Hge].
  - assert (Hsame : (if BamFilter.lastGood s then c
                     else clipRange modOp orig (BamFilter.opStart s)
                            (List.length orig) c) !! j = c !! j).
    { destruct (BamFilter.lastGood s); [done|].
      rewrite clipRange_lookup. by rewrite bool_decide_eq_false_2 by lia. }
    rewrite Hsame. split.
    + intros p Ha Hp. by eapply S4.
    + intros Hns Hall. by eapply S5.
  - assert (Hns : isSkip o = false) by (apply (I2 j o); [lia|done]).
    destruct (BamFilter.lastGood s) eqn:Hlg.
    + split.
      * intros p Ha Hp. rewrite S3 by lia. done.
      * intros _ Hall.
        destruct (BamFilter.opStart s) as [|q] eqn:Hos.
        { specialize (S1 eq_refl). discriminate. }
        pose proof (Hleft q eq_refl) as Ht. rewrite Hall in Ht; [discriminate|].
        split; [lia|]. split; [by destruct (S2 q eq_refl)|].
        intros i oi Hi Hoi. apply (I2 i oi); [lia|done].
    + rewrite clipRange_lookup, bool_decide_eq_true_2, Ho by lia.
      rewrite S3 by lia. rewrite Ho. split; [|done].
      intros p Ha Hp. rewrite <- (Hleft p) in Hp; [congruence|].
      apply Hadj; [lia|done].
Qed.

(** A skip of the input is met by the walk: its intron is among the
    derived ones. *)
Lemma trustedAt_derived (ref : RefSeq.t) (js : gset (Z * Z * Z)) (lStart : Z)
  (orig : list CigarOp.t) (p : nat) :
  trustedAt ref js lStart orig p = true →
  existsb (getJunction js) (derivedIntrons ref lStart orig) = true.
Proof.
  unfold trustedAt. destruct (orig !! p) as [op|] eqn:Hop; [|done].
  intros [Hskip Hj]%andb_true_iff.
  rewrite <- (take_drop_middle orig p op Hop).
  by apply existsb_derived_split.
Qed.


(** An all-bad result is an all-clipped record: when [clipMSR] reports
    [allBad], every operation of the returned record that is not a skip
    has the clip kind. *)
Theorem clipMSR_allBad_all_clipped (self : BamFilter.t) (al : loc)
  (a : BamAlignment.t) (refs : list RefSeq.t) (r : RefSeq.t)
  (js : gset (Z * Z * Z)) (h : Heap) :
  h !! al = Some a → 0 ≤ BamAlignment.refId a →
  refs !! Z.to_nat (BamAlignment.refId a) = Some r →
  ∃ (m : loc) (allBad : bool) (h' : Heap) (a' : BamAlignment.t),
    BamFilter.clipMSR self al refs js h = Some ((m, allBad), h') ∧
    h' !! m = Some a' ∧
    (allBad = true →
     ∀ (j : nat) (o : CigarOp.t),
       BamAlignment.cigar a !! j = Some o →
       CigarOp.type o ≠ BAM_CIGAR_REFSKIP_CHAR →
       BamAlignment.cigar a' !! j
       = Some (CigarOp.mk (BamFilter.modOpOf (BamFilter.clipMode self))
                 (CigarOp.length o))).
Proof.
  intros Hal Hpos Hr.
  eexists _, _, _, _. split; [apply (clipMSR_spec self al a refs r js h Hal Hpos Hr)|].
  split; [by rewrite lookup_insert_eq|].
  intros Hbad j o Ho Hty. cbn [BamAlignment.cigar BamAlignment.withCigar].
  apply clippedCigar_segments; [done|by apply isSkip_false|].
  intros p _. apply not_true_is_false. intros Hp.
  apply trustedAt_derived in Hp. unfold allBadOf in Hbad.
  rewrite Hp in Hbad. discriminate.
Qed.

(** ** Reads whose junctions are all trusted, reads without junctions *)

Lemma derivedIntrons_elem (ref : RefSeq.t) (l : Z) (ops : list CigarOp.t)
  (J : Intron.t) :
  J ∈ derivedIntrons ref l ops ↔
  ∃ pre op post, ops = pre ++ op :: post ∧ isSkip op = true ∧
                 J = intronAt ref (cursorAfter l pre) op.
Proof.
  split.
  - revert l. induction ops as [|o ops IH]; intros l; cbn.
    { intros H. by apply elem_of_nil in H. }
    destruct (isSkip o) eqn:Hskip.
    + intros [-> | Hin]%elem_of_cons.
      * by exists [], o, ops.
      * destruct (IH l Hin) as (pre & op & post & -> & Hs & ->).
        exists (o :: pre), op, post. cbn. by rewrite Hskip.
    + destruct (CigarOp.opConsumesReference (CigarOp.type o)) eqn:Hc;
        intros Hin; destruct (IH _ Hin) as (pre & op & post & -> & Hs & ->);
        exists (o :: pre), op, post; cbn; by rewrite Hskip, Hc.
  - intros (pre & op & post & -> & Hskip & ->).
    rewrite derivedIntrons_app. apply elem_of_app. right.
    cbn. rewrite Hskip. apply elem_of_cons. by left.
Qed.

Lemma derivedIntrons_no_skip (ref : RefSeq.t) (l : Z) (ops : list CigarOp.t) :
  Forall (λ o, isSkip o = false) ops → derivedIntrons ref l ops = [].
Proof.
  intros Hall. revert l. induction Hall as [|o ops Ho _ IH]; intros l; [done|].
  cbn. rewrite Ho. destruct (CigarOp.opConsumesReference _); apply IH.
Qed.

Lemma all_trusted_turns (modOp : ascii) (ref : RefSeq.t)
  (js : gset (Z * Z * Z)) (lStart : Z) (orig : list CigarOp.t) (k : nat) :
  Forall (λ J, getJunction js J = true) (derivedIntrons ref lStart orig) →
  (k ≤ List.length orig)%nat →
  (clipTurns modOp ref js lStart orig k).2 = orig.
Proof.
  intros Hall. induction k as [|k IH]; intros Hk; [done|].
  destruct (clipTurns_inv modOp ref js lStart orig k) as [_ _ _ I4 _]; [lia|].
  rewrite clipTurns_S. specialize (IH ltac:(lia)).
  destruct (clipTurns modOp ref js lStart orig k) as [s c]. cbn [fst snd] in *.
  destruct (lookup_lt_is_Some_2 orig k) as [op Hop]; [lia|].
  unfold clipTurn. rewrite Hop. cbn [fst snd]. unfold nextCigar.
  destruct (isSkip op) eqn:Hskip; [|done]. cbn [andb].
  rewrite I4. rewrite Forall_forall in Hall. rewrite Hall; [done|].
  apply derivedIntrons_elem.
  exists (take k orig), op, (drop (S k) orig).
  by rewrite take_drop_middle.
Qed.

(** A read whose junctions are all trusted comes back as an exact copy:
    if the walk derives at least one intron and every derived intron is
    in the junction system, [clipMSR] returns a fresh record equal to
    the input and [allBad = false]. *)
Theorem clipMSR_all_trusted_copy (self : BamFilter.t) (al : loc)
  (a : BamAlignment.t) (refs : list RefSeq.t) (r : RefSeq.t)
  (js : gset (Z * Z * Z)) (h : Heap) :
  h !! al = Some a → 0 ≤ BamAlignment.refId a →
  refs !! Z.to_nat (BamAlignment.refId a) = Some r →
  derivedIntrons (refSeqOf a r) (BamAlignment.position a)
    (BamAlignment.cigar a) ≠ [] →
  Forall (λ J, getJunction js J = true)
    (derivedIntrons (refSeqOf a r) (BamAlignment.position a)
       (BamAlignment.cigar a)) →
  BamFilter.clipMSR self al refs js h
  = Some ((fresh (dom h), false), <[fresh (dom h) := a]> h).
Proof.
  intros Hal Hpos Hr Hne Hall.
  rewrite (clipMSR_spec self al a refs r js h Hal Hpos Hr).
  set (modOp := BamFilter.modOpOf (BamFilter.clipMode self)).
  set (ref := refSeqOf a r). set (lStart := BamAlignment.position a).
  set (orig := BamAlignment.cigar a). fold ref lStart orig in Hne, Hall.
  assert (Hbad : allBadOf ref js lStart orig = false).
  { unfold allBadOf. destruct (derivedIntrons ref lStart orig) as [|J Js]; [done|].
    apply Forall_cons in Hall as [HJ _]. cbn. by rewrite HJ. }
  assert (Hcig : clippedCigar modOp ref js lStart orig = orig).
  { unfold clippedCigar. cbv zeta.
    pose proof (all_trusted_turns modOp ref js lStart orig (List.length orig)
                  Hall ltac:(done)) as Hsame.
    destruct (clipTurns_segments modOp ref js lStart orig (List.length orig))
      as [S1 S2 _ _ _]; [done|].
    destruct (clipTurns_inv modOp ref js lStart orig (List.length orig))
      as [_ I2 _ _ _]; [done|].
    destruct (clipTurns modOp ref js lStart orig (List.length orig)) as [s c].
    cbn [fst snd] in *. subst c.
    assert (Hlg : BamFilter.lastGood s = true); [|by rewrite Hlg].
    destruct (BamFilter.opStart s) as [|q] eqn:Hos.
    - exfalso. apply Hne, derivedIntrons_no_skip.
      apply Forall_lookup. intros i o Ho. apply (I2 i o); [|done].
      apply lookup_lt_Some in Ho. lia.
    - destruct (S2 q eq_refl) as [(op & Hop & Hskip) ->].
      rewrite (trustedAt_skip ref js lStart orig q op Hop Hskip).
      rewrite Forall_forall in Hall. apply Hall, derivedIntrons_elem.
      exists (take q orig), op, (drop (S q) orig).
      by rewrite take_drop_middle. }
  rewrite Hbad, Hcig. unfold orig. by rewrite withCigar_same.
Qed.

(** A read without a skip is clipped whole: every operation of the
    record [clipMSR] returns has the clip kind and the length of the
    input's, and [allBad] is true.  An empty operation vector gives an
    empty one. *)
Theorem clipMSR_no_skip_all_clipped (self : BamFilter.t) (al : loc)
  (a : BamAlignment.t) (refs : list RefSeq.t) (r : RefSeq.t)
  (js : gset (Z * Z * Z)) (h : Heap) :
  h !! al = Some a → 0 ≤ BamAlignment.refId a →
  refs !! Z.to_nat (BamAlignment.refId a) = Some r →
  Forall (λ o, CigarOp.type o ≠ BAM_CIGAR_REFSKIP_CHAR) (BamAlignment.cigar a) →
  BamFilter.clipMSR self al refs js h
  = Some ((fresh (dom h), true),
          <[fresh (dom h) :=
              BamAlignment.withCigar a
                ((λ o, CigarOp.mk (BamFilter.modOpOf (BamFilter.clipMode self))
                         (CigarOp.length o)) <$> BamAlignment.cigar a)]> h).
Proof.
  intros Hal Hpos Hr Hns.
  rewrite (clipMSR_spec self al a refs r js h Hal Hpos Hr).
  assert (Hns' : Forall (λ o, isSkip o = false) (BamAlignment.cigar a)).
  { eapply Forall_impl; [exact Hns|]. intros o. apply isSkip_false. }
  unfold allBadOf. rewrite derivedIntrons_no_skip by done. cbn [existsb negb].
  do 2 f_equal. f_equal. f_equal.
  apply list_eq. intros j. rewrite list_lookup_fmap.
  destruct (BamAlignment.cigar a !! j) as [o|] eqn:Ho; cbn.
  - rewrite Forall_lookup in Hns'.
    apply clippedCigar_segments; [done|by eapply Hns'|].
    intros p (_ & (op & Hop & Hskip) & _).
    rewrite (Hns' p op Hop) in Hskip. discriminate.
  - apply lookup_ge_None. rewrite clippedCigar_length.
    by apply lookup_ge_None.
Qed.

(** The two functions agree on a record: the containment check answers
    true exactly when [clipMSR] reports that not all junctions are bad. *)
Theorem containsJunction_iff_not_allBad (self : BamFilter.t) (al : loc)
  (a : BamAlignment.t) (refs : list RefSeq.t) (js : gset (Z * Z * Z))
  (h : Heap) :
  h !! al = Some a → validRef refs a →
  ∃ (found : bool) (m : loc) (allBad : bool) (h' : Heap),
    BamFilter.containsJunctionInSystem al refs js h = Some (found, h) ∧
    BamFilter.clipMSR self al refs js h = Some ((m, allBad), h') ∧
    found = negb allBad.
Proof.
  intros Hal [Hpos [r Hr]]. eexists _, _, _, _.
  split; [apply (containsJunctionInSystem_spec al a refs r js h Hal Hpos Hr)|].
  split; [apply (clipMSR_spec self al a refs r js h Hal Hpos Hr)|].
  unfold allBadOf. by rewrite negb_involutive.
Qed.

(** ** The junction keys the walk looks up *)

Lemma wrap32_small (z : Z) : - 2 ^ 31 ≤ z < 2 ^ 31 → wrap32 z = z.
Proof. intros Hz. unfold wrap32. rewrite Z.mod_small by lia. lia. Qed.

Lemma totalLengthOf_app (xs ys : list CigarOp.t) :
  totalLengthOf (xs ++ ys) = totalLengthOf xs + totalLengthOf ys.
Proof.
  induction xs as [|x xs IH]; [done|].
  change (CigarOp.length x + totalLengthOf (xs ++ ys)
          = CigarOp.length x + totalLengthOf xs + totalLengthOf ys).
  rewrite IH. lia.
Qed.

Lemma totalLengthOf_nonneg (ops : list CigarOp.t) :
  Forall (λ o, 0 ≤ CigarOp.length o) ops → 0 ≤ totalLengthOf ops.
Proof.
  induction 1 as [|o ops Ho _ IH]; [done|].
  change (0 ≤ CigarOp.length o + totalLengthOf ops). lia.
Qed.

Lemma nonSkipRefLength_bounds (ops : list CigarOp.t) :
  Forall (λ o, 0 ≤ CigarOp.length o) ops →
  0 ≤ nonSkipRefLength ops ≤ totalLengthOf ops.
Proof.
  induction 1 as [|o ops Ho _ IH]; [done|].
  change (0 ≤ (if isSkip o then 0 else refLength o) + nonSkipRefLength ops
          ≤ CigarOp.length o + totalLengthOf ops).
  unfold refLength.
  destruct (isSkip o), (CigarOp.opConsumesReference (CigarOp.type o)); lia.
Qed.

(** Without overflow the cursor is the start plus the lengths of the
    reference-consuming operations walked, skips left out. *)
Lemma cursorAfter_exact (l : Z) (ops : list CigarOp.t) :
  0 ≤ l → Forall (λ o, 0 ≤ CigarOp.length o) ops →
  l + totalLengthOf ops < 2 ^ 31 →
  cursorAfter l ops = l + nonSkipRefLength ops.
Proof.
  intros Hl Hall. revert l Hl. induction Hall as [|o ops Ho Hall IH]; intros l Hl Hsum.
  { cbn. lia. }
  pose proof (totalLengthOf_nonneg ops Hall) as Hnn.
  change (totalLengthOf (o :: ops)) with (CigarOp.length o + totalLengthOf ops) in Hsum.
  change (nonSkipRefLength (o :: ops))
    with ((if isSkip o then 0 else refLength o) + nonSkipRefLength ops).
  cbn [cursorAfter]. unfold refLength.
  destruct (isSkip o).
  - rewrite IH by lia. lia.
  - destruct (CigarOp.opConsumesReference (CigarOp.type o)).
    + rewrite wrap32_small by lia. rewrite IH by lia. lia.
    + rewrite IH by lia. lia.
Qed.

(** The keys the containment check consults.  For a read at a
    non-negative position whose lengths are non-negative and do not
    carry the cursor past the [int32_t] range, the check answers true
    exactly when the junction system holds, for some skip of the read,
    the key made of the read's reference id, the position plus the
    lengths of the reference-consuming operations before the skip other
    than skips, and that start plus the skip's length minus one. *)
Theorem containsJunction_keys (al : loc) (a : BamAlignment.t)
  (refs : list RefSeq.t) (js : gset (Z * Z * Z)) (h : Heap) :
  h !! al = Some a → validRef refs a →
  0 ≤ BamAlignment.position a →
  Forall (λ o, 0 ≤ CigarOp.length o) (BamAlignment.cigar a) →
  BamAlignment.position a + totalLengthOf (BamAlignment.cigar a) < 2 ^ 31 →
  ∃ found : bool,
    BamFilter.containsJunctionInSystem al refs js h = Some (found, h) ∧
    (found = true ↔
     ∃ pre op post,
       BamAlignment.cigar a = pre ++ op :: post ∧
       CigarOp.type op = BAM_CIGAR_REFSKIP_CHAR ∧
       let start := BamAlignment.position a + nonSkipRefLength pre in
       (BamAlignment.refId a, start, start + CigarOp.length op - 1) ∈ js).
Proof.
  intros Hal [Hpos [r Hr]] Hp Hnn Hsum.
  eexists. split; [apply (containsJunctionInSystem_spec al a refs r js h Hal Hpos Hr)|].
  assert (Hkey : ∀ pre op post,
    BamAlignment.cigar a = pre ++ op :: post →
    getJunction js
      (intronAt (refSeqOf a r) (cursorAfter (BamAlignment.position a) pre) op)
    = bool_decide
        ((BamAlignment.refId a,
          BamAlignment.position a + nonSkipRefLength pre,
          BamAlignment.position a + nonSkipRefLength pre + CigarOp.length op - 1)
         ∈ js)).
  { intros pre op post Hc. rewrite Hc in Hnn, Hsum.
    apply Forall_app in Hnn as [Hpre [Hop Hpost]%Forall_cons].
    rewrite totalLengthOf_app in Hsum.
    change (totalLengthOf (op :: post))
      with (CigarOp.length op + totalLengthOf post) in Hsum.
    pose proof (totalLengthOf_nonneg post Hpost) as Hpn.
    pose proof (nonSkipRefLength_bounds pre Hpre) as Hb.
    rewrite (cursorAfter_exact _ pre) by (done || lia).
    unfold getJunction, intronAt. cbn.
    rewrite !wrap32_small by (rewrite ?wrap32_small; lia). done. }
  rewrite existsb_exists. split.
  - intros (J & HJ & Htr). apply list_elem_of_In, derivedIntrons_elem in HJ.
    destruct HJ as (pre & op & post & Hc & Hskip & ->).
    exists pre, op, post. split; [done|]. split; [by apply isSkip_true|].
    rewrite (Hkey pre op post Hc) in Htr. by apply bool_decide_eq_true in Htr.
  - intros (pre & op & post & Hc & Hty & Hin).
    exists (intronAt (refSeqOf a r)
              (cursorAfter (BamAlignment.position a) pre) op).
    split.
    + apply list_elem_of_In, derivedIntrons_elem.
      exists pre, op, post. split; [done|]. split; [by apply isSkip_true|done].
    + rewrite (Hkey pre op post Hc). by apply bool_decide_eq_true.
Qed.

(** ** The record loop *)

Lemma filter_body_stepRun (self : BamFilter.t) (refs : list RefSeq.t)
  (js : gset (Z * Z * Z)) (al : loc) (a : BamAlignment.t)
  (st : BamFilter.Run) (h : Heap) :
  h !! al = Some a →
  (BamAlignment.isSplicedRead a = true → validRef refs a) →
  BamFilter.filter_body self refs js al st h
  = Some (stepRun self refs js st a, h).
Proof.
  intros Hal Hvalid. unfold stepRun, keptRecord, writtenRecord, clippedRecord.
  destruct (BamAlignment.isSplicedRead a) eqn:Hs; cbn [negb orb].
  2: { rewrite (filter_body_unspliced self refs js al a st h Hal Hs).
       destruct (BamAlignment.isMultiplySplicedRead a) eqn:Hmsr; [|done].
       apply msr_is_spliced in Hmsr. congruence. }
  destruct (Hvalid eq_refl) as [Hpos [r Hr]].
  unfold intronsOf. rewrite Hr.
  destruct (BamAlignment.isMultiplySplicedRead a) eqn:Hmsr; cbn [andb].
  - case_bool_decide as Hmode; cbn [negb].
    + rewrite (filter_body_single self refs r js al a st h Hal Hpos Hr Hs
                 (or_introl Hmode)).
      by destruct (existsb _ _).
    + rewrite (filter_body_msr self refs r js al a st h Hal Hpos Hr Hs Hmode Hmsr).
      unfold allBadOf. by destruct (existsb _ _).
  - rewrite (filter_body_single self refs r js al a st h Hal Hpos Hr Hs
               (or_intror Hmsr)).
    by destruct (existsb _ _).
Qed.

(** The loop returns, having applied [stepRun] to the records in order;
    it leaves every object of the store but the reader's as it was. *)
Lemma filter_loop_run (self : BamFilter.t) (refs : list RefSeq.t)
  (js : gset (Z * Z * Z)) (cur : loc) (records : list BamAlignment.t)
  (st : BamFilter.Run) (h : Heap) :
  is_Some (h !! cur) →
  Forall (λ a, BamAlignment.isSplicedRead a = true → validRef refs a) records →
  ∃ h' : Heap,
    filter_loop self refs js cur records st h
    = Some (foldl (stepRun self refs js) st records, h') ∧
    is_Some (h' !! cur) ∧ ∀ l, l ≠ cur → h' !! l = h !! l.
Proof.
  intros Hcur Hall. revert st h Hcur.
  induction Hall as [|a records Ha _ IH]; intros st h [a0 Hcur].
  - exists h. by eauto.
  - cbn [filter_loop foldl]. rewrite bind_run. unfold store at 1. rewrite Hcur.
    rewrite bind_run.
    rewrite (filter_body_stepRun self refs js cur a st (<[cur := a]> h));
      [|by rewrite lookup_insert_eq|done].
    destruct (IH (stepRun self refs js st a) (<[cur := a]> h))
      as (h' & Hrun & Hc & Hframe); [by rewrite lookup_insert_eq; eauto|].
    exists h'. split; [done|]. split; [done|].
    intros l Hl. rewrite (Hframe l Hl). by rewrite lookup_insert_ne.
Qed.

Lemma wrap64_succ (z : Z) : wrap64 (wrap64 z + 1) = wrap64 (z + 1).
Proof. unfold wrap64. by rewrite Zplus_mod_idemp_l. Qed.

Lemma wrap64_wrap64 (z : Z) : wrap64 (wrap64 z) = wrap64 z.
Proof. unfold wrap64. by rewrite Zmod_mod. Qed.

Lemma writtenRecord_unclipped (self : BamFilter.t) (refs : list RefSeq.t)
  (js : gset (Z * Z * Z)) (a : BamAlignment.t) :
  clippedRecord self a = false → writtenRecord self refs js a = a.
Proof. intros Hc. unfold writtenRecord. by rewrite Hc. Qed.

Lemma foldl_stepRun_writers (self : BamFilter.t) (refs : list RefSeq.t)
  (js : gset (Z * Z * Z)) (rs : list BamAlignment.t) (st : BamFilter.Run) :
  let st' := foldl (stepRun self refs js) st rs in
  BamFilter.writer st'
  = BamFilter.writer st
    ++ (writtenRecord self refs js <$> List.filter (keptRecord refs js) rs) ∧
  BamFilter.modWriter st'
  = BamFilter.modWriter st
    ++ (if BamFilter.saveMSRs self
        then writtenRecord self refs js <$> clippedKept self refs js rs
        else []) ∧
  BamFilter.unmodWriter st'
  = BamFilter.unmodWriter st
    ++ (if BamFilter.saveMSRs self then clippedKept self refs js rs else []).
Proof.
  revert st. induction rs as [|a rs IH]; intros st.
  { cbn. destruct (BamFilter.saveMSRs self); by rewrite !app_nil_r. }
  cbn zeta. cbn [foldl]. destruct (IH (stepRun self refs js st a)) as (Hw & Hm & Hu).
  rewrite Hw, Hm, Hu. clear IH Hw Hm Hu.
  unfold clippedKept. cbn [List.filter]. unfold stepRun.
  destruct (keptRecord refs js a) eqn:Hk; cbn [andb].
  - destruct (clippedRecord self a) eqn:Hc.
    + cbn. destruct (BamFilter.saveMSRs self); cbn;
        by rewrite <- ?app_assoc.
    + cbn. rewrite (writtenRecord_unclipped self refs js a Hc).
      by rewrite <- app_assoc.
  - done.
Qed.

Lemma foldl_stepRun_counters (self : BamFilter.t) (refs : list RefSeq.t)
  (js : gset (Z * Z * Z)) (rs : list BamAlignment.t) (st : BamFilter.Run) :
  let st' := foldl (stepRun self refs js) st rs in
  wrap64 (BamFilter.nbReadsIn st')
  = wrap64 (BamFilter.nbReadsIn st + Z.of_nat (List.length rs)) ∧
  wrap64 (BamFilter.nbReadsOut st')
  = wrap64 (BamFilter.nbReadsOut st
            + Z.of_nat (List.length (List.filter (keptRecord refs js) rs))) ∧
  wrap64 (BamFilter.nbReadsModifiedOut st')
  = wrap64 (BamFilter.nbReadsModifiedOut st
            + Z.of_nat (List.length (clippedKept self refs js rs))).
Proof.
  revert st. induction rs as [|a rs IH]; intros st.
  { cbn. by rewrite !Z.add_0_r. }
  cbn zeta. cbn [foldl]. destruct (IH (stepRun self refs js st a)) as (Hi & Ho & Hm).
  rewrite Hi, Ho, Hm. clear IH Hi Ho Hm.
  unfold clippedKept. cbn [List.filter]. unfold stepRun.
  assert (Hadd : ∀ x n : Z, wrap64 (wrap64 (x + 1) + n) = wrap64 (x + (1 + n))).
  { intros x n. unfold wrap64. rewrite Zplus_mod_idemp_l. f_equal. lia. }
  destruct (keptRecord refs js a) eqn:Hk; cbn [andb].
  - destruct (clippedRecord self a) eqn:Hc; cbn [List.length];
      rewrite ?Nat2Z.inj_succ, <- ?Z.add_1_l; cbn; rewrite ?Hadd; done.
  - cbn [List.length]. rewrite ?Nat2Z.inj_succ, <- ?Z.add_1_l. cbn.
    by rewrite ?Hadd.
Qed.

Lemma foldl_stepRun_range (self : BamFilter.t) (refs : list RefSeq.t)
  (js : gset (Z * Z * Z)) (rs : list BamAlignment.t) (st : BamFilter.Run) :
  let st' := foldl (stepRun self refs js) st rs in
  (wrap64 (BamFilter.nbReadsIn st) = BamFilter.nbReadsIn st →
   wrap64 (BamFilter.nbReadsIn st') = BamFilter.nbReadsIn st') ∧
  (wrap64 (BamFilter.nbReadsOut st) = BamFilter.nbReadsOut st →
   wrap64 (BamFilter.nbReadsOut st') = BamFilter.nbReadsOut st') ∧
  (wrap64 (BamFilter.nbReadsModifiedOut st) = BamFilter.nbReadsModifiedOut st →
   wrap64 (BamFilter.nbReadsModifiedOut st')
   = BamFilter.nbReadsModifiedOut st').
Proof.
  revert st. induction rs as [|a rs IH]; intros st; [done|].
  cbn zeta. cbn [foldl]. destruct (IH (stepRun self refs js st a)) as (Hi & Ho & Hm).
  unfold stepRun in *.
  destruct (keptRecord refs js a); [destruct (clippedRecord self a)|];
    (split; [|split]); intros H;
    first [apply Hi | apply Ho | apply Hm]; cbn;
    by rewrite ?wrap64_wrap64.
Qed.

Lemma filter_idempotent {A : Type} (f : A → bool) (l : list A) :
  List.filter f (List.filter f l) = List.filter f l.
Proof.
  induction l as [|x l IH]; [done|]. cbn.
  destruct (f x) eqn:Hx; [|done]. cbn. by rewrite Hx, IH.
Qed.

Lemma Forall_List_filter {A : Type} (P : A → Prop) (f : A → bool) (l : list A) :
  Forall P l → Forall P (List.filter f l).
Proof.
  induction 1 as [|x l Hx _ IH]; [done|]. cbn.
  destruct (f x); [by constructor|done].
Qed.

Lemma filter_all_true {A : Type} (f : A → bool) (l : list A) :
  Forall (λ x, f x = true) l → List.filter f l = l.
Proof.
  induction 1 as [|x l Hx _ IH]; [done|]. cbn. by rewrite Hx, IH.
Qed.

Lemma filter_length_le {A : Type} (f : A → bool) (l : list A) :
  (List.length (List.filter f l) ≤ List.length l)%nat.
Proof.
  induction l as [|x l IH]; [done|]. cbn. destruct (f x); cbn; lia.
Qed.

(** What the three writers hold after the record loop.  The loop
    returns and touches no object of the store but the reader's.  The
    primary writer holds, in input order, one record for each input
    record that is unspliced or has an intron in the junction system:
    the record itself, or its clipped copy when it went through
    [clipMSR].  Which records are written does not depend on the clip
    mode.  With [saveMSRs] the [unmod] writer holds the originals of
    the clipped records that were written and the [mod] writer their
    clipped copies, pairwise; without it both stay empty. *)
Theorem filter_records_writers (self : BamFilter.t) (refs : list RefSeq.t)
  (js : gset (Z * Z * Z)) (cur : loc) (records : list BamAlignment.t)
  (h : Heap) :
  is_Some (h !! cur) →
  Forall (λ a, BamAlignment.isSplicedRead a = true → validRef refs a) records →
  ∃ (st : BamFilter.Run) (h' : Heap),
    filter_records self refs js cur records h = Some (st, h') ∧
    (∀ l, l ≠ cur → h' !! l = h !! l) ∧
    BamFilter.writer st
    = (writtenRecord self refs js <$> List.filter (keptRecord refs js) records) ∧
    BamFilter.unmodWriter st
    = (if BamFilter.saveMSRs self then clippedKept self refs js records
       else []) ∧
    BamFilter.modWriter st
    = (writtenRecord self refs js <$> BamFilter.unmodWriter st).
Proof.
  intros Hcur Hall. unfold filter_records.
  destruct (filter_loop_run self refs js cur records
              (BamFilter.mkRun [] [] [] 0 0 0) h Hcur Hall)
    as (h' & Hrun & _ & Hframe).
  destruct (foldl_stepRun_writers self refs js records
              (BamFilter.mkRun [] [] [] 0 0 0)) as (Hw & Hm & Hu).
  eexists _, h'. split; [exact Hrun|]. split; [exact Hframe|].
  cbn in Hw, Hm, Hu. rewrite Hw, Hu, Hm.
  split; [done|]. split; [done|].
  by destruct (BamFilter.saveMSRs self).
Qed.

(** The counters after the record loop: [nbReadsIn] counts the records
    read, [nbReadsOut] the records in the primary writer,
    [nbReadsModifiedOut] the written records that went through
    [clipMSR] (whether or not clipping changed them), each modulo 2^64.
    No more records are written than read, and for fewer than 2^32
    records the reported [diff] is the number of records dropped. *)
Theorem filter_records_counters (self : BamFilter.t) (refs : list RefSeq.t)
  (js : gset (Z * Z * Z)) (cur : loc) (records : list BamAlignment.t)
  (h : Heap) :
  is_Some (h !! cur) →
  Forall (λ a, BamAlignment.isSplicedRead a = true → validRef refs a) records →
  ∃ (st : BamFilter.Run) (h' : Heap),
    filter_records self refs js cur records h = Some (st, h') ∧
    BamFilter.nbReadsIn st = wrap64 (Z.of_nat (List.length records)) ∧
    BamFilter.nbReadsOut st
    = wrap64 (Z.of_nat (List.length (BamFilter.writer st))) ∧
    BamFilter.nbReadsModifiedOut st
    = wrap64 (Z.of_nat (List.length (clippedKept self refs js records))) ∧
    (List.length (BamFilter.writer st) ≤ List.length records)%nat ∧
    (Z.of_nat (List.length records) < 2 ^ 32 →
     diffOf st
     = Z.of_nat (List.length records)
       - Z.of_nat (List.length (BamFilter.writer st))).
Proof.
  intros Hcur Hall. unfold filter_records.
  set (st0 := BamFilter.mkRun [] [] [] 0 0 0).
  destruct (filter_loop_run self refs js cur records st0 h Hcur Hall)
    as (h' & Hrun & _ & _).
  destruct (foldl_stepRun_writers self refs js records st0) as (Hw & _ & _).
  destruct (foldl_stepRun_counters self refs js records st0) as (Hi & Ho & Hm).
  destruct (foldl_stepRun_range self refs js records st0) as (Ri & Ro & Rm).
  cbv zeta in *. cbn [st0 BamFilter.writer BamFilter.nbReadsIn
    BamFilter.nbReadsOut BamFilter.nbReadsModifiedOut app] in *.
  rewrite Ri in Hi by done. rewrite Ro in Ho by done. rewrite Rm in Hm by done.
  rewrite Z.add_0_l in Hi, Ho, Hm.
  assert (Hlen : List.length (BamFilter.writer (foldl (stepRun self refs js) st0 records))
                 = List.length (List.filter (keptRecord refs js) records)).
  { by rewrite Hw, length_fmap. }
  pose proof (filter_length_le (keptRecord refs js) records) as Hle.
  eexists _, h'. split; [exact Hrun|]. split; [exact Hi|].
  split; [by rewrite Hlen|]. split; [exact Hm|]. split; [by rewrite Hlen|].
  intros Hsmall. unfold diffOf. rewrite Hi, Ho, Hlen. unfold wrap64.
  rewrite (Z.mod_small (Z.of_nat (List.length records))) by lia.
  rewrite (Z.mod_small (Z.of_nat (List.length (List.filter _ _)))) by lia.
  rewrite (Z.mod_small (_ - _) (2 ^ 64)) by lia.
  rewrite Z.mod_small by lia. done.
Qed.

(** Complete mode only selects.  The primary writer holds exactly the
    input records that are unspliced or have an intron in the junction
    system, unchanged and in order; the auxiliary writers stay empty
    even with [saveMSRs] and no record counts as modified.  Filtering
    the output again writes the same records. *)
Theorem filter_records_complete (self : BamFilter.t) (refs : list RefSeq.t)
  (js : gset (Z * Z * Z)) (cur : loc) (records : list BamAlignment.t)
  (h : Heap) :
  BamFilter.clipMode self = BamFilter.COMPLETE →
  is_Some (h !! cur) →
  Forall (λ a, BamAlignment.isSplicedRead a = true → validRef refs a) records →
  ∃ (st : BamFilter.Run) (h' : Heap),
    filter_records self refs js cur records h = Some (st, h') ∧
    BamFilter.writer st = List.filter (keptRecord refs js) records ∧
    BamFilter.modWriter st = [] ∧ BamFilter.unmodWriter st = [] ∧
    BamFilter.nbReadsModifiedOut st = 0 ∧
    ∃ (st2 : BamFilter.Run) (h2 : Heap),
      filter_records self refs js cur (BamFilter.writer st) h' = Some (st2, h2) ∧
      BamFilter.writer st2 = BamFilter.writer st.
Proof.
  intros Hmode Hcur Hall.
  assert (Hnc : ∀ a, clippedRecord self a = false).
  { intros a. unfold clippedRecord.
    rewrite bool_decide_eq_true_2 by done. apply andb_false_r. }
  assert (Hck : ∀ rs, clippedKept self refs js rs = []).
  { intros rs. unfold clippedKept. induction rs as [|a rs IH]; [done|].
    cbn. by rewrite Hnc, andb_false_r. }
  assert (Hwr : ∀ rs : list BamAlignment.t,
            writtenRecord self refs js <$> rs = rs).
  { intros rs. induction rs as [|a rs IH]; [done|].
    cbn. by rewrite IH, writtenRecord_unclipped. }
  assert (Hout : ∀ rs h0, is_Some (h0 !! cur) →
    Forall (λ a, BamAlignment.isSplicedRead a = true → validRef refs a) rs →
    ∃ st h', filter_records self refs js cur rs h0 = Some (st, h') ∧
      is_Some (h' !! cur) ∧
      BamFilter.writer st = List.filter (keptRecord refs js) rs ∧
      BamFilter.modWriter st = [] ∧ BamFilter.unmodWriter st = [] ∧
      BamFilter.nbReadsModifiedOut st = 0).
  { intros rs h0 Hc0 Hall0. unfold filter_records.
    set (st0 := BamFilter.mkRun [] [] [] 0 0 0).
    destruct (filter_loop_run self refs js cur rs st0 h0 Hc0 Hall0)
      as (h' & Hrun & Hc' & _).
    destruct (foldl_stepRun_writers self refs js rs st0) as (Hw & Hm & Hu).
    destruct (foldl_stepRun_counters self refs js rs st0) as (_ & _ & Hn).
    destruct (foldl_stepRun_range self refs js rs st0) as (_ & _ & Rm).
    cbv zeta in *. rewrite Rm in Hn by done. rewrite Hck in Hm, Hu, Hn.
    rewrite Hwr in Hw.
    eexists _, h'. split; [exact Hrun|]. split; [exact Hc'|].
    rewrite Hw, Hm, Hu, Hn. cbn. by destruct (BamFilter.saveMSRs self). }
  destruct (Hout records h Hcur Hall) as (st & h' & Hrun & Hc' & Hw & Hm & Hu & Hn).
  exists st, h'. split; [done|]. split; [done|]. split; [done|].
  split; [done|]. split; [done|].
  destruct (Hout (BamFilter.writer st) h' Hc')
    as (st2 & h2 & Hrun2 & _ & Hw2 & _).
  { rewrite Hw. by apply Forall_List_filter. }
  exists st2, h2. split; [done|]. rewrite Hw2, Hw. apply filter_idempotent.
Qed.

(** Records that pass through.  In every mode, if each input record is
    unspliced, or has an intron in the junction system and does not go
    through [clipMSR], the primary writer holds the input unchanged. *)
Theorem filter_records_pass_through (self : BamFilter.t)
  (refs : list RefSeq.t) (js : gset (Z * Z * Z)) (cur : loc)
  (records : list BamAlignment.t) (h : Heap) :
  is_Some (h !! cur) →
  Forall (λ a, BamAlignment.isSplicedRead a = true → validRef refs a) records →
  Forall (λ a, keptRecord refs js a = true ∧ clippedRecord self a = false)
    records →
  ∃ (st : BamFilter.Run) (h' : Heap),
    filter_records self refs js cur records h = Some (st, h') ∧
    BamFilter.writer st = records ∧
    BamFilter.modWriter st = [] ∧ BamFilter.unmodWriter st = [] ∧
    diffOf st = 0.
Proof.
  intros Hcur Hall Hpass. unfold filter_records.
  set (st0 := BamFilter.mkRun [] [] [] 0 0 0).
  destruct (filter_loop_run self refs js cur records st0 h Hcur Hall)
    as (h' & Hrun & _ & _).
  destruct (foldl_stepRun_writers self refs js records st0) as (Hw & Hm & Hu).
  destruct (foldl_stepRun_counters self refs js records st0) as (Hi & Ho & _).
  destruct (foldl_stepRun_range self refs js records st0) as (Ri & Ro & _).
  cbv zeta in *.
  assert (Hk : List.filter (keptRecord refs js) records = records).
  { apply filter_all_true. eapply Forall_impl; [exact Hpass|]. by intros a [? ?]. }
  assert (Hck : clippedKept self refs js records = []).
  { unfold clippedKept. clear -Hpass.
    induction Hpass as [|a rs [_ Hc] _ IH]; [done|].
    cbn. by rewrite Hc, andb_false_r. }
  assert (Hwr : writtenRecord self refs js <$> records = records).
  { clear -Hpass. induction Hpass as [|a rs [_ Hc] _ IH]; [done|].
    cbn. by rewrite IH, writtenRecord_unclipped. }
  rewrite Hk, Hwr in Hw. rewrite Hck in Hm, Hu. rewrite Hk in Ho.
  eexists _, h'. split; [exact Hrun|]. rewrite Hw, Hm, Hu.
  split; [done|]. split; [by destruct (BamFilter.saveMSRs self)|].
  split; [by destruct (BamFilter.saveMSRs self)|].
  unfold diffOf. rewrite <- (Ri eq_refl), <- (Ro eq_refl), Hi, Ho.
  cbn [st0 BamFilter.nbReadsIn BamFilter.nbReadsOut].
  unfold wrap64. rewrite <- Zminus_mod, Z.sub_diag. done.
Qed.

(** ** CIGAR text *)

Lemma append_assoc3 (s1 s2 s3 : string) :
  (s1 +:+ s2) +:+ s3 = s1 +:+ (s2 +:+ s3).
Proof.
  induction s1 as [|c s1 IH]; [done|].
  change (String c ((s1 +:+ s2) +:+ s3) = String c (s1 +:+ (s2 +:+ s3))).
  by rewrite IH.
Qed.

Lemma pretty_N_go_numeric (x : N) (s : string) :
  allNumChars s = true → allNumChars (pretty_N_go x s) = true.
Proof.
  revert s. induction (N.lt_wf_0 x) as [x _ IH]; intros s Hs.
  assert (x = 0 ∨ 0 < x)%N as [->|Hx] by lia.
  - by rewrite pretty_N_go_0.
  - rewrite pretty_N_go_step by done. apply IH.
    { by apply N.div_lt. }
    cbn. rewrite Hs, andb_true_r.
    unfold pretty_N_char. by repeat case_match.
Qed.

Lemma pretty_Z_numeric (z : Z) : allNumChars (pretty z) = true.
Proof.
  assert (HN : ∀ n : N, allNumChars (pretty n) = true).
  { intros n. unfold pretty, pretty_N. case_decide; [done|].
    by apply pretty_N_go_numeric. }
  destruct z as [|p|p]; [done|apply (HN (Npos p))|].
  change (pretty (Zneg p)) with ("-" +:+ pretty (Npos p)). cbn.
  apply (HN (Npos p)).
Qed.

(** A run of number characters ends at the first other character. *)
Lemma numeric_prefix_unique (s1 s2 r1 r2 : string) (t1 t2 : ascii) :
  allNumChars s1 = true → allNumChars s2 = true →
  isNumChar t1 = false → isNumChar t2 = false →
  s1 +:+ String t1 r1 = s2 +:+ String t2 r2 →
  s1 = s2 ∧ t1 = t2 ∧ r1 = r2.
Proof.
  intros H1 H2 Ht1 Ht2. revert s2 H2.
  induction s1 as [|c1 s1 IH]; intros [|c2 s2] H2 Heq; cbn in *.
  - by injection Heq as -> ->.
  - injection Heq as -> _. apply andb_true_iff in H2 as [H2 _]. congruence.
  - injection Heq as -> _. apply andb_true_iff in H1 as [H1 _]. congruence.
  - injection Heq as -> Heq.
    apply andb_true_iff in H1 as [_ H1]. apply andb_true_iff in H2 as [_ H2].
    destruct (IH H1 s2 H2 Heq) as (-> & -> & ->). done.
Qed.

Lemma toString_split (o1 o2 : CigarOp.t) (r1 r2 : string) :
  isNumChar (CigarOp.type o1) = false → isNumChar (CigarOp.type o2) = false →
  toString o1 +:+ r1 = toString o2 +:+ r2 → o1 = o2 ∧ r1 = r2.
Proof.
  intros Ht1 Ht2. unfold toString. rewrite !append_assoc3. cbn. intros Heq.
  apply numeric_prefix_unique in Heq as (Hp & Ht & Hr);
    [|apply pretty_Z_numeric|apply pretty_Z_numeric|done|done].
  apply (inj pretty) in Hp. split; [|done].
  destruct o1, o2. cbn in *. by subst.
Qed.

Lemma cigarKinds_not_numeric (c : ascii) :
  c ∈ cigarKinds → isNumChar c = false.
Proof.
  unfold cigarKinds. rewrite !elem_of_cons, elem_of_nil.
  intros [->|[->|[->|[->|[->|[->|[->|[->|[->|[->|[]]]]]]]]]]]; reflexivity.
Qed.

(** The text of a CIGAR vector determines the vector.  Two alignments
    whose operations all carry one of the ten kind characters and whose
    [getCigarAsString] texts are equal have the same operations, kinds
    and lengths, in the same order. *)
Theorem getCigarAsString_unambiguous (a1 a2 : BamAlignment.t) :
  Forall (λ o, CigarOp.type o ∈ cigarKinds) (BamAlignment.cigar a1) →
  Forall (λ o, CigarOp.type o ∈ cigarKinds) (BamAlignment.cigar a2) →
  getCigarAsString a1 = getCigarAsString a2 →
  BamAlignment.cigar a1 = BamAlignment.cigar a2.
Proof.
  unfold getCigarAsString.
  generalize (BamAlignment.cigar a1) (BamAlignment.cigar a2).
  intros ops1 ops2 H1. revert ops2.
  induction H1 as [|o1 ops1 Ho1 _ IH]; intros ops2 H2 Heq.
  - destruct H2 as [|o2 ops2 Ho2 _]; [done|]. cbn in Heq. exfalso.
    unfold toString in Heq. rewrite append_assoc3 in Heq.
    destruct (pretty (CigarOp.length o2)); discriminate.
  - destruct H2 as [|o2 ops2 Ho2 H2]; cbn in Heq.
    + exfalso. unfold toString in Heq. rewrite append_assoc3 in Heq.
      destruct (pretty (CigarOp.length o1)); discriminate.
    + apply toString_split in Heq as [-> Heq];
        [|by apply cigarKinds_not_numeric..].
      by rewrite (IH ops2 H2 Heq).
Qed.

(** ** Writing and reading an operation through a handle *)

(** [setCigarOpAt] then [getCigarOpAt].  Writing an operation at an
    index inside the vector succeeds; reading the index back gives the
    operation written, every other index reads as before, the number of
    operations, position and reference id of the record are unchanged,
    and no other object of the store is touched. *)
Theorem setCigarOpAt_then_get (l : loc) (a : BamAlignment.t) (i : nat)
  (op : CigarOp.t) (h : Heap) :
  h !! l = Some a → (i < List.length (BamAlignment.cigar a))%nat →
  ∃ h' : Heap,
    setCigarOpAt l i op h = Some (tt, h') ∧
    getCigarOpAt l i h' = Some (op, h') ∧
    (∀ j o, j ≠ i → BamAlignment.cigar a !! j = Some o →
            getCigarOpAt l j h' = Some (o, h')) ∧
    getNbCigarOps l h' = Some (List.length (BamAlignment.cigar a), h') ∧
    getPosition l h' = Some (BamAlignment.position a, h') ∧
    getReferenceId l h' = Some (BamAlignment.refId a, h') ∧
    (∀ l2, l2 ≠ l → h' !! l2 = h !! l2).
Proof.
  intros Hl Hi. eexists. split; [by apply setCigarOpAt_run|].
  set (a' := BamAlignment.withCigar a (<[i := op]> (BamAlignment.cigar a))).
  assert (Hl' : <[l := a']> h !! l = Some a') by apply lookup_insert_eq.
  split; [|split; [|split; [|split; [|split]]]].
  - apply (getCigarOpAt_run l a'); [done|]. cbn. by apply list_lookup_insert_eq.
  - intros j o Hj Ho. apply (getCigarOpAt_run l a'); [done|]. cbn.
    by rewrite list_lookup_insert_ne.
  - unfold getNbCigarOps. rewrite bind_run, (load_run _ _ _ Hl'). cbn.
    unfold BamAlignment.getNbCigarOps. cbn. by rewrite length_insert.
  - unfold getPosition. by rewrite bind_run, (load_run _ _ _ Hl').
  - unfold getReferenceId. by rewrite bind_run, (load_run _ _ _ Hl').
  - intros l2 Hl2. by rewrite lookup_insert_ne.
Qed.

(** ** What the pipeline never does to a record *)

Lemma clipOf_refl (modOp : ascii) (ops : list CigarOp.t) :
  Forall2 (clipOf modOp) ops ops.
Proof. induction ops as [|o ops IH]; constructor; [by left|done]. Qed.

Lemma writtenRecord_clipOf (self : BamFilter.t) (refs : list RefSeq.t)
  (js : gset (Z * Z * Z)) (a : BamAlignment.t) :
  writtenRecord self refs js a
  = BamAlignment.withCigar a
      (BamAlignment.cigar (writtenRecord self refs js a)) ∧
  Forall2 (clipOf (BamFilter.modOpOf (BamFilter.clipMode self)))
    (BamAlignment.cigar a)
    (BamAlignment.cigar (writtenRecord self refs js a)).
Proof.
  unfold writtenRecord.
  destruct (clippedRecord self a);
    [destruct (refs !! Z.to_nat (BamAlignment.refId a))|].
  - split; [done|]. cbn. apply clippedCigar_Forall2.
  - split; [by rewrite withCigar_same|apply clipOf_refl].
  - split; [by rewrite withCigar_same|apply clipOf_refl].
Qed.

(** The primary output against the input.  The records written are, in
    input order, the input records that are unspliced or have an intron
    in the junction system, one output record for each.  An output
    record differs from its input record in the operation vector only,
    and there only in the kind of operations that are no skips, which
    may have become the clip kind: no length, no skip, no other field
    changes, and nothing is reordered or written twice. *)
Theorem filter_records_only_rekinds (self : BamFilter.t)
  (refs : list RefSeq.t) (js : gset (Z * Z * Z)) (cur : loc)
  (records : list BamAlignment.t) (h : Heap) :
  is_Some (h !! cur) →
  Forall (λ a, BamAlignment.isSplicedRead a = true → validRef refs a) records →
  ∃ (st : BamFilter.Run) (h' : Heap),
    filter_records self refs js cur records h = Some (st, h') ∧
    Forall2
      (λ a a',
         a' = BamAlignment.withCigar a (BamAlignment.cigar a') ∧
         Forall2 (clipOf (BamFilter.modOpOf (BamFilter.clipMode self)))
           (BamAlignment.cigar a) (BamAlignment.cigar a'))
      (List.filter (keptRecord refs js) records) (BamFilter.writer st).
Proof.
  intros Hcur Hall. unfold filter_records.
  destruct (filter_loop_run self refs js cur records
              (BamFilter.mkRun [] [] [] 0 0 0) h Hcur Hall)
    as (h' & Hrun & _ & _).
  destruct (foldl_stepRun_writers self refs js records
              (BamFilter.mkRun [] [] [] 0 0 0)) as (Hw & _ & _).
  eexists _, h'. split; [exact Hrun|]. cbn in Hw. rewrite Hw.
  apply Forall2_fmap_r, Forall_Forall2_diag, Forall_forall.
  intros a _. apply writtenRecord_clipOf.
Qed.

(** ** The junction system as a parameter *)

Lemma getJunction_empty (J : Intron.t) : getJunction ∅ J = false.
Proof. unfold getJunction. apply bool_decide_eq_false. set_solver. Qed.

Lemma existsb_getJunction_empty (Js : list Intron.t) :
  existsb (getJunction ∅) Js = false.
Proof. induction Js as [|J Js IH]; [done|]. cbn. by rewrite getJunction_empty. Qed.

Lemma msr_not_unspliced (self : BamFilter.t) (a : BamAlignment.t) :
  BamAlignment.isSplicedRead a = false → clippedRecord self a = false.
Proof.
  intros Hs. unfold clippedRecord.
  destruct (BamAlignment.isMultiplySplicedRead a) eqn:Hmsr; [|done].
  apply msr_is_spliced in Hmsr. congruence.
Qed.

(** With an empty junction system only the unspliced records survive:
    the primary writer holds exactly the unspliced input records,
    unchanged and in order, in every mode. *)
Theorem filter_records_no_junctions (self : BamFilter.t)
  (refs : list RefSeq.t) (cur : loc) (records : list BamAlignment.t)
  (h : Heap) :
  is_Some (h !! cur) →
  Forall (λ a, BamAlignment.isSplicedRead a = true → validRef refs a) records →
  ∃ (st : BamFilter.Run) (h' : Heap),
    filter_records self refs ∅ cur records h = Some (st, h') ∧
    BamFilter.writer st
    = List.filter (λ a, negb (BamAlignment.isSplicedRead a)) records ∧
    BamFilter.modWriter st = [] ∧ BamFilter.unmodWriter st = [].
Proof.
  intros Hcur Hall. unfold filter_records.
  destruct (filter_loop_run self refs ∅ cur records
              (BamFilter.mkRun [] [] [] 0 0 0) h Hcur Hall)
    as (h' & Hrun & _ & _).
  destruct (foldl_stepRun_writers self refs ∅ records
              (BamFilter.mkRun [] [] [] 0 0 0)) as (Hw & Hm & Hu).
  eexists _, h'. split; [exact Hrun|]. cbn in Hw, Hm, Hu. rewrite Hw, Hm, Hu.
  assert (Hkept : ∀ a, keptRecord refs ∅ a = negb (BamAlignment.isSplicedRead a)).
  { intros a. unfold keptRecord.
    by rewrite existsb_getJunction_empty, orb_false_r. }
  assert (Hck : clippedKept self refs ∅ records = []).
  { unfold clippedKept. clear -Hkept. induction records as [|a rs IH]; [done|].
    cbn. rewrite Hkept.
    destruct (BamAlignment.isSplicedRead a) eqn:Hs; [done|].
    by rewrite (msr_not_unspliced self a Hs). }
  rewrite Hck. split; [|by destruct (BamFilter.saveMSRs self)].
  clear -Hkept. induction records as [|a rs IH]; [done|]. cbn.
  rewrite Hkept. destruct (BamAlignment.isSplicedRead a) eqn:Hs; cbn; [done|].
  rewrite IH. f_equal. apply writtenRecord_unclipped.
  by apply msr_not_unspliced.
Qed.

(** Trusting more junctions never drops a record the smaller junction
    system keeps: if the containment check answers true for [js] it
    answers true for every [js'] that includes [js]; and if [clipMSR]
    reports [allBad] for [js'] it reports it for [js]. *)
Theorem containsJunction_monotone (self : BamFilter.t) (al : loc)
  (a : BamAlignment.t) (refs : list RefSeq.t) (js js' : gset (Z * Z * Z))
  (h : Heap) :
  h !! al = Some a → validRef refs a → js ⊆ js' →
  (BamFilter.containsJunctionInSystem al refs js h = Some (true, h) →
   BamFilter.containsJunctionInSystem al refs js' h = Some (true, h)) ∧
  ((∃ m h', BamFilter.clipMSR self al refs js' h = Some ((m, true), h')) →
   ∃ m h', BamFilter.clipMSR self al refs js h = Some ((m, true), h')).
Proof.
  intros Hal [Hpos [r Hr]] Hsub.
  rewrite !(containsJunctionInSystem_spec al a refs r _ h Hal Hpos Hr).
  rewrite !(clipMSR_spec self al a refs r _ h Hal Hpos Hr). unfold allBadOf.
  assert (Hmono : ∀ Js, existsb (getJunction js) Js = true →
                        existsb (getJunction js') Js = true).
  { intros Js. rewrite !existsb_exists. intros (J & HJ & Htr).
    exists J. split; [done|]. unfold getJunction in *.
    apply bool_decide_eq_true. apply bool_decide_eq_true in Htr. set_solver. }
  split.
  - intros [= Hf]. by rewrite (Hmono _ Hf).
  - intros (m & h' & [= _ Hb _]). eexists _, _. do 3 f_equal.
    apply negb_true_iff in Hb. apply negb_true_iff. apply not_true_is_false.
    intros Ht. apply Hmono in Ht. congruence.
Qed.

(** ** Query length of a clipped record *)

Lemma clipOf_queryLength_hard (orig out : list CigarOp.t) :
  Forall (λ o, 0 ≤ CigarOp.length o) orig →
  Forall2 (clipOf BAM_CIGAR_HARDCLIP_CHAR) orig out →
  queryLengthOf out ≤ queryLengthOf orig.
Proof.
  intros Hnn H. induction H as [|o o' orig out Ho _ IH]; [done|].
  apply Forall_cons in Hnn as [Hn Hnn]. specialize (IH Hnn).
  change (queryLength o' + queryLengthOf out ≤ queryLength o + queryLengthOf orig).
  destruct Ho as [-> | [_ ->]]; [lia|].
  unfold queryLength. cbn.
  destruct (CigarOp.opConsumesQuery (CigarOp.type o)); lia.
Qed.

Lemma clipOf_queryLength_soft (orig out : list CigarOp.t) :
  Forall (λ o, 0 ≤ CigarOp.length o) orig →
  Forall2 (clipOf BAM_CIGAR_SOFTCLIP_CHAR) orig out →
  queryLengthOf orig ≤ queryLengthOf out.
Proof.
  intros Hnn H. induction H as [|o o' orig out Ho _ IH]; [done|].
  apply Forall_cons in Hnn as [Hn Hnn]. specialize (IH Hnn).
  change (queryLength o + queryLengthOf orig ≤ queryLength o' + queryLengthOf out).
  destruct Ho as [-> | [_ ->]]; [lia|].
  unfold queryLength. cbn.
  destruct (CigarOp.opConsumesQuery (CigarOp.type o)); lia.
Qed.

(** The query length under clipping.  For non-negative lengths, the sum
    of the lengths of the query-consuming operations of the record
    [clipMSR] returns is at most the input's in Hard mode (a hard clip
    consumes no query) and at least the input's in Soft mode (a soft
    clip consumes query, also where the rewritten operation, a deletion
    say, did not). *)
Theorem clipMSR_query_length (self : BamFilter.t) (al : loc)
  (a : BamAlignment.t) (refs : list RefSeq.t) (js : gset (Z * Z * Z))
  (h : Heap) :
  h !! al = Some a → validRef refs a →
  Forall (λ o, 0 ≤ CigarOp.length o) (BamAlignment.cigar a) →
  ∃ (m : loc) (allBad : bool) (h' : Heap) (a' : BamAlignment.t),
    BamFilter.clipMSR self al refs js h = Some ((m, allBad), h') ∧
    h' !! m = Some a' ∧
    (BamFilter.clipMode self = BamFilter.HARD →
     queryLengthOf (BamAlignment.cigar a')
     ≤ queryLengthOf (BamAlignment.cigar a)) ∧
    (BamFilter.clipMode self = BamFilter.SOFT →
     queryLengthOf (BamAlignment.cigar a)
     ≤ queryLengthOf (BamAlignment.cigar a')).
Proof.
  intros Hal [Hpos [r Hr]] Hnn.
  eexists _, _, _, _. split; [apply (clipMSR_spec self al a refs r js h Hal Hpos Hr)|].
  split; [by rewrite lookup_insert_eq|].
  cbn [BamAlignment.cigar BamAlignment.withCigar].
  pose proof (clippedCigar_Forall2
                (BamFilter.modOpOf (BamFilter.clipMode self)) (refSeqOf a r) js
                (BamAlignment.position a) (BamAlignment.cigar a)) as HF.
  split; intros Hmode; rewrite Hmode in *; cbn in HF.
  - by apply clipOf_queryLength_hard.
  - by apply clipOf_queryLength_soft.
Qed.

(** ** The read classifier on a clipped record *)

Lemma clipOf_skip_count (modOp : ascii) (orig out : list CigarOp.t) :
  modOp ≠ BAM_CIGAR_REFSKIP_CHAR →
  Forall2 (clipOf modOp) orig out →
  List.length (filter (λ op, CigarOp.type op = BAM_CIGAR_REFSKIP_CHAR) out)
  = List.length (filter (λ op, CigarOp.type op = BAM_CIGAR_REFSKIP_CHAR) orig).
Proof.
  intros Hmod. induction 1 as [|o o' orig out Ho _ IH]; [done|].
  rewrite !filter_cons. destruct Ho as [-> | [Hns ->]].
  - case_decide; cbn; by rewrite IH.
  - apply isSkip_false in Hns.
    rewrite decide_False by done. by rewrite decide_False by done.
Qed.

(** Clipping does not change how a record is classified: the record
    [clipMSR] returns has as many junctions as the input, so it is
    spliced, and multiply spliced, exactly when the input is. *)
Theorem clipMSR_same_junction_count (self : BamFilter.t) (al : loc)
  (a : BamAlignment.t) (refs : list RefSeq.t) (js : gset (Z * Z * Z))
  (h : Heap) :
  h !! al = Some a → validRef refs a →
  ∃ (m : loc) (allBad : bool) (h' : Heap) (a' : BamAlignment.t),
    BamFilter.clipMSR self al refs js h = Some ((m, allBad), h') ∧
    h' !! m = Some a' ∧
    BamAlignment.getNbJunctionsInRead a' = BamAlignment.getNbJunctionsInRead a ∧
    BamAlignment.isSplicedRead a' = BamAlignment.isSplicedRead a ∧
    BamAlignment.isMultiplySplicedRead a'
    = BamAlignment.isMultiplySplicedRead a.
Proof.
  intros Hal [Hpos [r Hr]].
  eexists _, _, _, _. split; [apply (clipMSR_spec self al a refs r js h Hal Hpos Hr)|].
  split; [by rewrite lookup_insert_eq|].
  assert (Hn : BamAlignment.getNbJunctionsInRead
                 (BamAlignment.withCigar a
                    (clippedCigar (BamFilter.modOpOf (BamFilter.clipMode self))
                       (refSeqOf a r) js (BamAlignment.position a)
                       (BamAlignment.cigar a)))
               = BamAlignment.getNbJunctionsInRead a).
  { unfold BamAlignment.getNbJunctionsInRead. cbn [BamAlignment.cigar BamAlignment.withCigar].
    eapply clipOf_skip_count; [|apply clippedCigar_Forall2].
    by destruct (BamFilter.clipMode self). }
  split; [done|].
  unfold BamAlignment.isSplicedRead, BamAlignment.isMultiplySplicedRead.
  by rewrite Hn.
Qed.

(** ** The further properties at the worked inputs *)

Lemma ex_records_valid :
  Forall (λ a, BamAlignment.isSplicedRead a = true → validRef ex_refs a)
    ex_records.
Proof.
  repeat (apply Forall_cons; split;
          [intros _; split; [vm_compute; discriminate | by exists ex_ref]|]).
  constructor.
Defined.

Lemma ex_heap_cur : is_Some (ex_heap !! 1%positive).
Proof. by exists ex_al. Defined.


Lemma clipMSR_allBad_all_clipped_witness :
  ∃ (m : loc) (h' : Heap) (a' : BamAlignment.t),
    BamFilter.clipMSR ex_hard 1%positive ex_refs ∅ ex_heap
    = Some ((m, true), h') ∧
    h' !! m = Some a' ∧
    BamAlignment.cigar a' !! 0%nat = Some (CigarOp.mk "H" 50) ∧
    BamAlignment.cigar a' !! 2%nat = Some (CigarOp.mk "H" 30).
Proof.
  destruct (clipMSR_allBad_all_clipped ex_hard 1%positive ex_al ex_refs
              ex_ref ∅ ex_heap)
    as (m & allBad & h' & a' & Hrun & Hm & Hall).
  - reflexivity.
  - vm_compute. discriminate.
  - reflexivity.
  - assert (Hb : allBad = true).
    { assert (Hc : ∃ m1 h1, BamFilter.clipMSR ex_hard 1%positive ex_refs ∅
                              ex_heap = Some ((m1, true), h1))
        by (eexists _, _; vm_compute; reflexivity).
      destruct Hc as (m1 & h1 & Hc). rewrite Hc in Hrun. by injection Hrun. }
    exists m, h', a'. split; [by rewrite <- Hb|]. split; [assumption|].
    split.
    + apply (Hall Hb 0%nat (CigarOp.mk "M" 50)); [reflexivity|discriminate].
    + apply (Hall Hb 2%nat (CigarOp.mk "M" 30)); [reflexivity|discriminate].
Defined.

Lemma clipMSR_all_trusted_copy_witness :
  BamFilter.clipMSR ex_hard 1%positive ex_refs ex_js_all ex_heap
  = Some ((fresh (dom ex_heap), false), <[fresh (dom ex_heap) := ex_al]> ex_heap).
Proof.
  apply (clipMSR_all_trusted_copy ex_hard 1%positive ex_al ex_refs ex_ref
           ex_js_all ex_heap).
  - reflexivity.
  - vm_compute. discriminate.
  - reflexivity.
  - vm_compute. discriminate.
  - assert (derivedIntrons (refSeqOf ex_al ex_ref) (BamAlignment.position ex_al)
              (BamAlignment.cigar ex_al)
            = [Intron.mk ex_ref 150 349; Intron.mk ex_ref 180 679]) as ->
      by (vm_compute; reflexivity).
    apply Forall_cons. split; [vm_compute; reflexivity|].
    apply Forall_cons. split; [vm_compute; reflexivity|]. constructor.
Defined.

Lemma clipMSR_no_skip_all_clipped_witness :
  BamFilter.clipMSR ex_hard 1%positive ex_refs ex_js
    {[ 1%positive := ex_unspliced ]}
  = Some ((fresh (dom ({[ 1%positive := ex_unspliced ]} : Heap)), true),
          <[fresh (dom ({[ 1%positive := ex_unspliced ]} : Heap)) :=
              BamAlignment.withCigar ex_unspliced [CigarOp.mk "H" 75]]>
            {[ 1%positive := ex_unspliced ]}).
Proof.
  apply (clipMSR_no_skip_all_clipped ex_hard 1%positive ex_unspliced ex_refs
           ex_ref ex_js {[ 1%positive := ex_unspliced ]}).
  - reflexivity.
  - vm_compute. discriminate.
  - reflexivity.
  - apply Forall_cons. split; [discriminate|]. constructor.
Defined.

Lemma containsJunction_iff_not_allBad_witness :
  ∃ (found : bool) (m : loc) (allBad : bool) (h' : Heap),
    BamFilter.containsJunctionInSystem 1%positive ex_refs ex_js ex_heap
    = Some (found, ex_heap) ∧
    BamFilter.clipMSR ex_hard 1%positive ex_refs ex_js ex_heap
    = Some ((m, allBad), h') ∧
    found = negb allBad.
Proof.
  apply (containsJunction_iff_not_allBad ex_hard 1%positive ex_al ex_refs
           ex_js ex_heap).
  - reflexivity.
  - exact ex_al_validRef.
Defined.

Lemma containsJunction_keys_witness :
  BamFilter.containsJunctionInSystem 1%positive ex_refs ex_js ex_heap
  = Some (true, ex_heap).
Proof.
  destruct (containsJunction_keys 1%positive ex_al ex_refs ex_js ex_heap)
    as (found & Hrun & Hiff).
  - reflexivity.
  - exact ex_al_validRef.
  - vm_compute. discriminate.
  - repeat (apply Forall_cons; split; [vm_compute; discriminate|]).
    constructor.
  - vm_compute. reflexivity.
  - rewrite Hrun. assert (Hf : found = true); [|by rewrite Hf].
    apply Hiff.
    exists [CigarOp.mk "M" 50], (CigarOp.mk "N" 200),
           [CigarOp.mk "M" 30; CigarOp.mk "N" 500; CigarOp.mk "M" 20].
    split; [reflexivity|]. split; [reflexivity|].
    apply elem_of_singleton. reflexivity.
Defined.

Lemma setCigarOpAt_then_get_witness :
  ∃ h' : Heap,
    setCigarOpAt 1%positive 4 (CigarOp.mk "H" 20) ex_heap = Some (tt, h') ∧
    getCigarOpAt 1%positive 4 h' = Some (CigarOp.mk "H" 20, h') ∧
    getCigarOpAt 1%positive 3 h' = Some (CigarOp.mk "N" 500, h') ∧
    getNbCigarOps 1%positive h' = Some (5%nat, h').
Proof.
  destruct (setCigarOpAt_then_get 1%positive ex_al 4 (CigarOp.mk "H" 20) ex_heap)
    as (h' & Hset & Hget & Hother & Hnb & _).
  - reflexivity.
  - cbn. lia.
  - exists h'. split; [assumption|]. split; [assumption|].
    split; [apply Hother; [discriminate|reflexivity]|exact Hnb].
Defined.

Lemma filter_records_writers_witness :
  ∃ (st : BamFilter.Run) (h' : Heap),
    filter_records ex_hard ex_refs ex_js 1%positive ex_records ex_heap
    = Some (st, h') ∧
    BamFilter.writer st
    = [ex_unspliced; ex_single;
       BamAlignment.withCigar ex_al
         [CigarOp.mk "M" 50; CigarOp.mk "N" 200; CigarOp.mk "M" 30;
          CigarOp.mk "N" 500; CigarOp.mk "H" 20]] ∧
    BamFilter.unmodWriter st = [ex_al] ∧
    BamFilter.modWriter st
    = [BamAlignment.withCigar ex_al
         [CigarOp.mk "M" 50; CigarOp.mk "N" 200; CigarOp.mk "M" 30;
          CigarOp.mk "N" 500; CigarOp.mk "H" 20]].
Proof.
  destruct (filter_records_writers ex_hard ex_refs ex_js 1%positive ex_records
              ex_heap ex_heap_cur ex_records_valid)
    as (st & h' & Hrun & _ & Hw & Hu & Hm).
  exists st, h'. split; [assumption|].
  rewrite Hm, Hu, Hw. split; [vm_compute; reflexivity|].
  split; vm_compute; reflexivity.
Defined.

Lemma filter_records_counters_witness :
  ∃ (st : BamFilter.Run) (h' : Heap),
    filter_records ex_hard ex_refs ex_js 1%positive ex_records ex_heap
    = Some (st, h') ∧
    BamFilter.nbReadsIn st = 4 ∧
    BamFilter.nbReadsModifiedOut st = 1 ∧
    diffOf st = 4 - Z.of_nat (List.length (BamFilter.writer st)).
Proof.
  destruct (filter_records_counters ex_hard ex_refs ex_js 1%positive ex_records
              ex_heap ex_heap_cur ex_records_valid)
    as (st & h' & Hrun & Hi & _ & Hm & _ & Hd).
  exists st, h'. split; [assumption|]. split; [exact Hi|]. split; [exact Hm|].
  apply Hd. vm_compute. reflexivity.
Defined.

Lemma filter_records_complete_witness :
  ∃ (st : BamFilter.Run) (h' : Heap),
    filter_records ex_complete ex_refs ex_js 1%positive ex_records ex_heap
    = Some (st, h') ∧
    BamFilter.writer st = [ex_unspliced; ex_single; ex_al] ∧
    BamFilter.modWriter st = [] ∧ BamFilter.unmodWriter st = [].
Proof.
  destruct (filter_records_complete ex_complete ex_refs ex_js 1%positive
              ex_records ex_heap eq_refl ex_heap_cur ex_records_valid)
    as (st & h' & Hrun & Hw & Hm & Hu & _).
  exists st, h'. split; [assumption|]. rewrite Hw.
  split; [vm_compute; reflexivity|]. split; assumption.
Defined.

Lemma filter_records_pass_through_witness :
  ∃ (st : BamFilter.Run) (h' : Heap),
    filter_records ex_hard ex_refs ex_js 1%positive [ex_unspliced; ex_single]
      ex_heap = Some (st, h') ∧
    BamFilter.writer st = [ex_unspliced; ex_single] ∧ diffOf st = 0.
Proof.
  destruct (filter_records_pass_through ex_hard ex_refs ex_js 1%positive
              [ex_unspliced; ex_single] ex_heap ex_heap_cur)
    as (st & h' & Hrun & Hw & _ & _ & Hd).
  - repeat (apply Forall_cons; split;
            [intros _; split; [vm_compute; discriminate | by exists ex_ref]|]).
    constructor.
  - repeat (apply Forall_cons; split;
            [split; vm_compute; reflexivity|]).
    constructor.
  - exists st, h'. split; [assumption|]. split; assumption.
Defined.

Lemma filter_records_only_rekinds_witness :
  ∃ (st : BamFilter.Run) (h' : Heap),
    filter_records ex_hard ex_refs ex_js 1%positive ex_records ex_heap
    = Some (st, h') ∧
    List.length (BamFilter.writer st) = 3%nat.
Proof.
  destruct (filter_records_only_rekinds ex_hard ex_refs ex_js 1%positive
              ex_records ex_heap ex_heap_cur ex_records_valid)
    as (st & h' & Hrun & Hrel).
  exists st, h'. split; [assumption|].
  apply Forall2_length in Hrel. rewrite <- Hrel. vm_compute. reflexivity.
Defined.

Lemma filter_records_no_junctions_witness :
  ∃ (st : BamFilter.Run) (h' : Heap),
    filter_records ex_hard ex_refs ∅ 1%positive ex_records ex_heap
    = Some (st, h') ∧
    BamFilter.writer st = [ex_unspliced].
Proof.
  destruct (filter_records_no_junctions ex_hard ex_refs 1%positive ex_records
              ex_heap ex_heap_cur ex_records_valid)
    as (st & h' & Hrun & Hw & _).
  exists st, h'. split; [assumption|]. rewrite Hw. vm_compute. reflexivity.
Defined.

Lemma containsJunction_monotone_witness :
  BamFilter.containsJunctionInSystem 1%positive ex_refs ex_js_all ex_heap
  = Some (true, ex_heap).
Proof.
  destruct (containsJunction_monotone ex_hard 1%positive ex_al ex_refs ex_js
              ex_js_all ex_heap) as [Hmono _].
  - reflexivity.
  - exact ex_al_validRef.
  - unfold ex_js, ex_js_all. set_solver.
  - apply Hmono. vm_compute. reflexivity.
Defined.

Lemma clipMSR_query_length_witness :
  ∃ (m : loc) (allBad : bool) (h' : Heap) (a' : BamAlignment.t),
    BamFilter.clipMSR ex_hard 1%positive ex_refs ex_js ex_heap
    = Some ((m, allBad), h') ∧
    h' !! m = Some a' ∧
    queryLengthOf (BamAlignment.cigar a') ≤ 100.
Proof.
  destruct (clipMSR_query_length ex_hard 1%positive ex_al ex_refs ex_js ex_heap)
    as (m & allBad & h' & a' & Hrun & Hm & Hhard & _).
  - reflexivity.
  - exact ex_al_validRef.
  - repeat (apply Forall_cons; split; [vm_compute; discriminate|]).
    constructor.
  - exists m, allBad, h', a'. split; [assumption|]. split; [assumption|].
    apply (Hhard eq_refl).
Defined.

Lemma getCigarAsString_unambiguous_witness :
  BamAlignment.cigar ex_al
  = BamAlignment.cigar (BamAlignment.mk 16 7 800 1 0 0 ex_cigar).
Proof.
  apply getCigarAsString_unambiguous.
  - repeat (apply Forall_cons; split; [vm_compute; repeat constructor|]).
    constructor.
  - repeat (apply Forall_cons; split; [vm_compute; repeat constructor|]).
    constructor.
  - vm_compute. reflexivity.
Defined.

Lemma clipMSR_same_junction_count_witness :
  ∃ (m : loc) (allBad : bool) (h' : Heap) (a' : BamAlignment.t),
    BamFilter.clipMSR ex_hard 1%positive ex_refs ex_js ex_heap
    = Some ((m, allBad), h') ∧
    h' !! m = Some a' ∧
    BamAlignment.getNbJunctionsInRead a' = 2%nat ∧
    BamAlignment.isMultiplySplicedRead a' = true.
Proof.
  destruct (clipMSR_same_junction_count ex_hard 1%positive ex_al ex_refs ex_js
              ex_heap)
    as (m & allBad & h' & a' & Hrun & Hm & Hn & _ & Hmsr).
  - reflexivity.
  - exact ex_al_validRef.
  - exists m, allBad, h', a'. split; [assumption|]. split; [assumption|].
    split; [by rewrite Hn|by rewrite Hmsr].
Defined.
